(** * MalTrackarr: token lifecycle, paginated fetch and enrichment

    A shallow embedding of [app.py].  The module keeps one global
    dictionary [config], reads and writes it to a JSON file, talks to
    three HTTP endpoints and reads the wall clock.  Those effects are
    modelled by explicit state passing over a [world]; the remote
    servers and the clock are an [env] the theorems quantify over.

    JSON values are the values [json.load] yields, except floating
    point numbers, which the embedding leaves out (every numeric field
    of the data model is an integer).  Python's [None] and JSON's
    [null] are the same value, [JNull]. *)

From Stdlib Require Import ZArith Ascii String DecimalString DecimalPos.
From stdpp Require Import base option list gmap strings fin_maps.

Set Warnings "-register-all".
Local Open Scope string_scope.
Local Open Scope Z_scope.

(** ** JSON values *)

Inductive json : Type :=
  | JNull
  | JBool (b : bool)
  | JInt (n : Z)
  | JStr (s : string)
  | JArr (l : list json)
  | JObj (kvs : list (string * json)).

(** Exceptions the module can raise or let through. *)
Inductive exn : Type :=
  | RuntimeError (msg : string)
  | AttributeError
  | TypeError
  | ValueError
  | RequestException
  | JSONDecodeError
  | HTTPError (status : Z).

Inductive result (A : Type) : Type :=
  | Ok (a : A)
  | Raise (e : exn).
Arguments Ok {A} a.
Arguments Raise {A} e.

#[global] Instance result_ret : MRet result := @Ok.
#[global] Instance result_bind : MBind result := λ A B f r,
  match r with Ok a => f a | Raise e => Raise e end.

(** [bool(v)]: the truth value Python gives a JSON value. *)
Definition truthy (v : json) : bool :=
  match v with
  | JNull => false
  | JBool b => b
  | JInt n => negb (n =? 0)
  | JStr s => negb (String.eqb s "")
  | JArr l => match l with [] => false | _ :: _ => true end
  | JObj kvs => match kvs with [] => false | _ :: _ => true end
  end.

(** ** Dictionaries read from JSON

    An object keeps its members in document order; [json.load] leaves
    one binding per key, so the first binding found is the binding. *)

Fixpoint dict_find (k : string) (kvs : list (string * json)) : option json :=
  match kvs with
  | [] => None
  | (k', v) :: rest => if String.eqb k k' then Some v else dict_find k rest
  end.

(** [d.get(k, dflt)] *)
Definition dict_get_default (k : string) (dflt : json) (kvs : list (string * json)) : json :=
  default dflt (dict_find k kvs).

(** [d.get(k)] *)
Definition dict_get (k : string) (kvs : list (string * json)) : json :=
  dict_get_default k JNull kvs.

(** [k in d] *)
Definition dict_has (k : string) (kvs : list (string * json)) : bool :=
  bool_decide (is_Some (dict_find k kvs)).

(** [v.get(k, dflt)] on an arbitrary value: only [dict] has [get]. *)
Definition py_get_default (k : string) (dflt : json) (v : json) : result json :=
  match v with
  | JObj kvs => Ok (dict_get_default k dflt kvs)
  | _ => Raise AttributeError
  end.

Definition py_get (k : string) (v : json) : result json :=
  py_get_default k JNull v.

(** ** [int(...)]

    On a [str], [int] strips surrounding white space, reads an optional
    sign and then decimal digits, where single underscores may separate
    digits.  Strings are taken over ASCII; the interpreter's cap on
    the number of digits it converts is not part of the model. *)

Definition is_space (c : ascii) : bool :=
  let n := Z.of_nat (nat_of_ascii c) in
  (n =? 32) || ((9 <=? n) && (n <=? 13)) || ((28 <=? n) && (n <=? 31)).

Definition digit_val (c : ascii) : option Z :=
  let n := Z.of_nat (nat_of_ascii c) in
  if (48 <=? n) && (n <=? 57) then Some (n - 48) else None.

Fixpoint drop_spaces (l : list ascii) : list ascii :=
  match l with
  | c :: l' => if is_space c then drop_spaces l' else l
  | [] => []
  end.

Definition strip (l : list ascii) : list ascii :=
  rev (drop_spaces (rev (drop_spaces l))).

(** [after_digit] tells whether the previous character was a digit: an
    underscore is legal only between two digits. *)
Fixpoint read_digits (acc : Z) (after_digit : bool) (l : list ascii) : option Z :=
  match l with
  | [] => if after_digit then Some acc else None
  | c :: l' =>
      match digit_val c with
      | Some d => read_digits (10 * acc + d) true l'
      | None =>
          if Ascii.eqb c "_"%char && after_digit
          then read_digits acc false l'
          else None
      end
  end.

Definition read_signed (l : list ascii) : option Z :=
  match l with
  | c :: l' =>
      if Ascii.eqb c "-"%char then Z.opp <$> read_digits 0 false l'
      else if Ascii.eqb c "+"%char then read_digits 0 false l'
      else read_digits 0 false l
  | [] => None
  end.

Definition int_of_str (s : string) : option Z :=
  read_signed (strip (list_ascii_of_string s)).

(** [int(v)]: [ValueError] for a string that is no integer literal,
    [TypeError] for [None], lists and dicts. *)
Definition py_int (v : json) : result Z :=
  match v with
  | JInt n => Ok n
  | JBool b => Ok (if b then 1 else 0)
  | JStr s => match int_of_str s with Some n => Ok n | None => Raise ValueError end
  | JNull | JArr _ | JObj _ => Raise TypeError
  end.

(** [str(n)] for an integer, as an f-string renders it. *)
Definition str_of_int (n : Z) : string :=
  NilZero.string_of_int (Z.to_int n).

(** ** The world: configuration, storage, network, clock *)

(** An HTTP request as [requests] sends it.  [auth] is the value put
    after [Bearer ] in the [Authorization] header, [None] when the
    request carries no such header. *)
Inductive request : Type :=
  | Post (url : string) (data : list (string * json))
  | Get (url : string) (auth : option json) (params : list (string * json)).

Record response : Type := mkResponse {
  status_code : Z;
  text : string;
  (* what [resp.json()] returns; [None] when the body is not JSON *)
  body : option json
}.

(** What the process does that the outside can see: requests sent and
    whole-record writes of the credential file. *)
Inductive event : Type :=
  | Sent (r : request)
  | Saved (c : gmap string json).

Definition requests_of (l : list event) : list request :=
  omap (λ ev, match ev with Sent r => Some r | Saved _ => None end) l.

(** The outside: [server] answers the newest request (the head) knowing
    all earlier ones, [None] standing for a transport failure;
    [clock n] is what the [n]-th reading of [time.time()] gives. *)
Record env : Type := mkEnv {
  server : list request → option response;
  clock : nat → Z
}.

Record world : Type := mkWorld {
  config : gmap string json;            (* the global [config] *)
  disk : option (gmap string json);     (* the file at [CONFIG_PATH], if any *)
  log : list event;                     (* newest first *)
  ticks : nat                           (* clock readings so far *)
}.

Definition M (A : Type) : Type := world → result A * world.

Definition pure {A : Type} (a : A) : M A := λ w, (Ok a, w).
#[global] Instance M_bind : MBind M := λ A B f m w,
  match m w with
  | (Ok a, w') => f a w'
  | (Raise e, w') => (Raise e, w')
  end.

Definition raise {A : Type} (e : exn) : M A := λ w, (Raise e, w).

Definition lift {A : Type} (r : result A) : M A := λ w, (r, w).

Definition MAL_TOKEN_URL : string := "https://myanimelist.net/v1/oauth2/token".
Definition MAL_API_BASE : string := "https://api.myanimelist.net/v2/".
Definition ANIME_IDS_RAW_URL : string :=
  "https://raw.githubusercontent.com/Kometa-Team/Anime-IDs/master/anime_ids.json".

(** [config.get(k, dflt)] *)
Definition config_get_default (k : string) (dflt : json) : M json := λ w,
  (Ok (default dflt (config w !! k)), w).

(** [config.get(k)] *)
Definition config_get (k : string) : M json := config_get_default k JNull.

(** [config[k] = v] *)
Definition config_set (k : string) (v : json) : M unit := λ w,
  (Ok (), mkWorld (<[k := v]> (config w)) (disk w) (log w) (ticks w)).

(** [config.pop(k, None)] *)
Definition config_pop (k : string) : M unit := λ w,
  (Ok (), mkWorld (delete k (config w)) (disk w) (log w) (ticks w)).

Definition load_config : M unit := λ w,
  (Ok (), mkWorld (default ∅ (disk w)) (disk w) (log w) (ticks w)).

Definition save_config : M unit := λ w,
  (Ok (), mkWorld (config w) (Some (config w)) (Saved (config w) :: log w) (ticks w)).

Definition now_ts (e : env) : M Z := λ w,
  (Ok (clock e (ticks w)), mkWorld (config w) (disk w) (log w) (S (ticks w))).

(** One call of [requests.get] or [requests.post]. *)
Definition send (e : env) (r : request) : M response := λ w,
  let l := Sent r :: log w in
  let w' := mkWorld (config w) (disk w) l (ticks w) in
  match server e (requests_of l) with
  | Some resp => (Ok resp, w')
  | None => (Raise RequestException, w')
  end.

(** [requests.get(url, ...)] where [url] is whatever the program holds:
    only a string reaches the network.  A string that [requests]
    refuses before sending (one without a scheme) is not told apart
    here: it is for the environment to answer [None] to it. *)
Definition http_get (e : env) (url : json) (auth : option json)
    (params : list (string * json)) : M response :=
  match url with
  | JStr u => send e (Get u auth params)
  | _ => raise RequestException
  end.

(** [resp.json()] *)
Definition resp_json (resp : response) : M json :=
  match body resp with
  | Some j => pure j
  | None => raise JSONDecodeError
  end.

(** ** Token manager *)

Definition token_is_valid (e : env) : M bool :=
  at_ ← config_get "access_token";
  exp ← config_get_default "expires_at" (JInt 0);
  if negb (truthy at_) then pure false
  else
    now ← now_ts e;
    n ← lift (py_int exp);
    pure (now + 60 <? n).

Definition request_token_with_refresh (e : env)
    (refresh_token client_id client_secret : json) : M json :=
  let data := [("grant_type", JStr "refresh_token");
               ("client_id", client_id);
               ("client_secret", client_secret);
               ("refresh_token", refresh_token)] in
  resp ← send e (Post MAL_TOKEN_URL data);
  if status_code resp =? 200 then resp_json resp else pure JNull.

Definition request_token_with_code (e : env)
    (code code_verifier client_id client_secret : json) : M json :=
  let data := [("grant_type", JStr "authorization_code");
               ("code", code);
               ("code_verifier", code_verifier);
               ("client_id", client_id);
               ("client_secret", client_secret)] in
  resp ← send e (Post MAL_TOKEN_URL data);
  if status_code resp =? 200 then resp_json resp else pure JNull.

Definition apply_token_response (e : env) (token_resp : json) : M unit :=
  access_token ← lift (py_get "access_token" token_resp);
  refresh_token ← lift (py_get "refresh_token" token_resp);
  expires_in ← lift (py_get_default "expires_in" (JInt 0) token_resp);
  if negb (truthy access_token)
  then raise (RuntimeError "token response didn't include access_token")
  else
    config_set "access_token" access_token;;
    (if truthy refresh_token then config_set "refresh_token" refresh_token
     else pure ());;
    now ← now_ts e;
    n ← lift (py_int expires_in);
    config_set "expires_at" (JInt (now + n));;
    save_config.

(** The tail of [ensure_token] after the refresh flow was absent or
    failed: the authorization-code flow, then the final [raise]. *)
Definition ensure_token_code_flow (e : env) (client_id client_secret : json) : M unit :=
  authorization_code ← config_get "authorization_code";
  code_verifier ← config_get "code_verifier";
  let no_path : M unit :=
    raise (RuntimeError "Could not obtain access token. Provide a valid refresh_token or authorization_code+code_verifier in config.") in
  if truthy authorization_code && truthy code_verifier then
    token_resp ← request_token_with_code e authorization_code code_verifier
                   client_id client_secret;
    if truthy token_resp then apply_token_response e token_resp
    else no_path
  else no_path.

Definition ensure_token (e : env) : M unit :=
  load_config;;
  valid ← token_is_valid e;
  if (valid : bool) then pure ()
  else
    client_id ← config_get "client_id";
    client_secret ← config_get "client_secret";
    if negb (truthy client_id) || negb (truthy client_secret)
    then raise (RuntimeError "client_id and client_secret must be present in config")
    else
      refresh_token ← config_get "refresh_token";
      if truthy refresh_token then
        token_resp ← request_token_with_refresh e refresh_token client_id client_secret;
        if truthy token_resp then apply_token_response e token_resp
        else ensure_token_code_flow e client_id client_secret
      else ensure_token_code_flow e client_id client_secret.

(** ** List fetcher *)

(** [f"Failed to fetch animelist: {resp.status_code} {resp.text}"] *)
Definition fetch_failed_msg (resp : response) : string :=
  "Failed to fetch animelist: " +:+ str_of_int (status_code resp) +:+ " " +:+ text resp.

(** [items.extend(v)]: a list gives its elements, a dict its keys, a
    string its characters; nothing else is iterable. *)
Definition py_extend (items : list json) (v : json) : result (list json) :=
  match v with
  | JArr l => Ok (items ++ l)%list
  | JObj kvs => Ok (items ++ map (λ kv, JStr (fst kv)) kvs)%list
  | JStr s => Ok (items ++ map (λ c, JStr (String c EmptyString)) (list_ascii_of_string s))%list
  | JNull | JBool _ | JInt _ => Raise TypeError
  end.

(** [urljoin(MAL_API_BASE, f"users/{username}/animelist")], for a user
    name that is a plain path segment. *)
Definition animelist_url (username : string) : string :=
  MAL_API_BASE +:+ "users/" +:+ username +:+ "/animelist".

(** The 401 branch inside the loop: drop the token, save, get a new
    one, send the request again (without [params]).  Gives the new
    response and the new token. *)
Definition refresh_and_retry (e : env) (url : json) : M (response * json) :=
  config_pop "access_token";;
  save_config;;
  ensure_token e;;
  token ← config_get "access_token";
  resp ← http_get e url (Some token) [];
  pure (resp, token).

(** One turn of the [while url:] loop, for a truthy [url].  Gives the
    next [url], the token now in [headers], and the grown [items]. *)
Definition animelist_page (e : env) (url token : json)
    (params : list (string * json)) (items : list json) : M (json * json * list json) :=
  resp ← http_get e url (Some token) params;
  rt ← (if status_code resp =? 401 then refresh_and_retry e url
        else pure (resp, token));
  let resp := fst rt in
  let token := snd rt in
  if negb (status_code resp =? 200)
  then raise (RuntimeError (fetch_failed_msg resp))
  else
    data ← resp_json resp;
    page_items ← lift (py_get_default "data" (JArr []) data);
    items ← lift (py_extend items page_items);
    paging ← lift (py_get_default "paging" (JObj []) data);
    next_url ← lift (py_get "next" paging);
    pure (next_url, token, items).

(** The loop.  [fuel] bounds the number of turns; [None] means the
    bound was reached with a page still to fetch. *)
Fixpoint fetch_loop (e : env) (fuel : nat) (url token : json)
    (params : list (string * json)) (items : list json) : M (option (list json)) :=
  if negb (truthy url) then pure (Some items)
  else
    match fuel with
    | O => pure None
    | S fuel' =>
        r ← animelist_page e url token params items;
        let '(next_url, token, items) := r in
        fetch_loop e fuel' next_url token [] items
    end.

Definition fetch_all_animelist (e : env) (fuel : nat) (username status : string)
    : M (option (list json)) :=
  ensure_token e;;
  token ← config_get "access_token";
  fetch_loop e fuel (JStr (animelist_url username)) token
    [("status", JStr status); ("limit", JInt 100)] [].

(** ** Cross-reference loader *)

(** The key one document entry is stored under; [None] is the
    [continue]. *)
Definition mal_id_of (key : string) (val : json) : option Z :=
  let mal_id :=
    match val with
    | JObj d =>
        if dict_has "mal_id" d then
          match py_int (dict_get "mal_id" d) with
          | Ok n => Some n
          | Raise _ => None
          end
        else None
    | _ => None
    end in
  match mal_id with
  | Some n => Some n
  | None =>
      match py_int (JStr key) with
      | Ok n => Some n
      | Raise _ => None
      end
  end.

(** The [for key, val in payload.items()] loop over [mal_map]. *)
Fixpoint anime_ids_loop (mal_map : gmap Z json) (payload : list (string * json))
    : gmap Z json :=
  match payload with
  | [] => mal_map
  | (key, val) :: rest =>
      match mal_id_of key val with
      | Some mal_id => anime_ids_loop (<[mal_id := val]> mal_map) rest
      | None => anime_ids_loop mal_map rest
      end
  end.

(** [resp.raise_for_status()] *)
Definition raise_for_status (resp : response) : M unit :=
  if (400 <=? status_code resp) && (status_code resp <? 600)
  then raise (HTTPError (status_code resp))
  else pure ().

Definition fetch_anime_ids_map (e : env) : M (gmap Z json) :=
  resp ← send e (Get ANIME_IDS_RAW_URL None []);
  raise_for_status resp;;
  payload ← resp_json resp;
  match payload with
  | JObj kvs => pure (anime_ids_loop ∅ kvs)
  | _ => raise AttributeError
  end.

(** ** Enrichment merger *)

Fixpoint str_contains (needle hay : string) : bool :=
  String.prefix needle hay ||
  match hay with
  | EmptyString => false
  | String _ hay' => str_contains needle hay'
  end.

(** [k in v] for a string [k]: key of a dict, element of a list,
    substring of a string. *)
Definition py_in (k : string) (v : json) : result bool :=
  match v with
  | JObj d => Ok (dict_has k d)
  | JArr l => Ok (existsb (λ x, match x with JStr s => String.eqb s k | _ => false end) l)
  | JStr s => Ok (str_contains k s)
  | JNull | JBool _ | JInt _ => Raise TypeError
  end.

(** [v not in (None, "")] *)
Definition not_none_or_empty (v : json) : bool :=
  match v with
  | JNull => false
  | JStr EmptyString => false
  | _ => true
  end.

(** The two conditional assignments made when [mapped] is truthy. *)
Definition add_ids (entry : list (string * json)) (mapped : json)
    : result (list (string * json)) :=
  has_tvdb ← py_in "tvdb_id" mapped;
  entry ← (if (has_tvdb : bool) then
             tvdb ← py_get "tvdb_id" mapped;
             Ok (if not_none_or_empty tvdb then (entry ++ [("id", tvdb)])%list else entry)
           else Ok entry);
  has_imdb ← py_in "imdb_id" mapped;
  if (has_imdb : bool) then
    imdb ← py_get "imdb_id" mapped;
    Ok (if truthy imdb then (entry ++ [("imdb_id", imdb)])%list else entry)
  else Ok entry.

(** The body of the [for item in animelist_items] loop: [None] is the
    [continue], [Some entry] what is appended to [out]. *)
Definition output_entry (item : json) (anime_ids_map : gmap Z json)
    : result (option json) :=
  node0 ← py_get "node" item;
  let node := if truthy node0 then node0 else JObj [] in
  mal_id ← py_get "id" node;
  title ← py_get "title" node;
  if negb (truthy mal_id) then Ok None
  else
    let entry := [("title", title); ("malId", mal_id)] in
    k ← py_int mal_id;
    let mapped := default JNull (anime_ids_map !! k) in
    if truthy mapped then
      entry ← add_ids entry mapped;
      Ok (Some (JObj entry))
    else Ok (Some (JObj entry)).

Fixpoint build_output_loop (out : list json) (animelist_items : list json)
    (anime_ids_map : gmap Z json) : result (list json) :=
  match animelist_items with
  | [] => Ok out
  | item :: rest =>
      r ← output_entry item anime_ids_map;
      match r with
      | Some entry => build_output_loop (out ++ [entry])%list rest anime_ids_map
      | None => build_output_loop out rest anime_ids_map
      end
  end.

Definition build_output_list (animelist_items : list json)
    (anime_ids_map : gmap Z json) : result (list json) :=
  build_output_loop [] animelist_items anime_ids_map.

(** ** Vocabulary of the specification *)

(** The embedded "source identifier" of a cross-reference value, when
    the value is a record holding one that [int] accepts. *)
Definition embedded_id (val : json) : option Z :=
  match val with
  | JObj d =>
      match dict_find "mal_id" d with
      | Some v => match py_int v with Ok n => Some n | Raise _ => None end
      | None => None
      end
  | _ => None
  end.

(** Key derivation in the specification's words: the embedded
    identifier if it parses, else the document key if it parses, else
    nothing. *)
Definition spec_crossref_key (key : string) (val : json) : option Z :=
  match embedded_id val with
  | Some n => Some n
  | None => int_of_str key
  end.

(** The node of a watch-list entry, its identifier and its title, read
    without failing ([JNull] where the shape is not there). *)
Definition item_node (item : json) : json :=
  match item with
  | JObj d => let n := dict_get "node" d in if truthy n then n else JObj []
  | _ => JObj []
  end.

Definition item_mal_id (item : json) : json :=
  match item_node item with JObj nd => dict_get "id" nd | _ => JNull end.

Definition item_title (item : json) : json :=
  match item_node item with JObj nd => dict_get "title" nd | _ => JNull end.

Definition base_entry (item : json) : list (string * json) :=
  [("title", item_title item); ("malId", item_mal_id item)].

(** A watch-list entry of the data model: a record whose node, if it
    has one, is a record whose identifier is an integer or missing. *)
Definition entry_ok (item : json) : bool :=
  match item with
  | JObj d =>
      let n := dict_get "node" d in
      if truthy n then
        match n with
        | JObj nd => match dict_get "id" nd with JInt _ | JNull => true | _ => false end
        | _ => false
        end
      else true
  | _ => false
  end.

(** A cross-reference value of the data model: a record. *)
Definition crossref_ok (v : json) : bool :=
  match v with JObj _ => true | _ => false end.

(** A write of the credential file that records the discarded token. *)
Definition is_discard (ev : event) : bool :=
  match ev with
  | Saved c => bool_decide (c !! "access_token" = None)
  | Sent _ => false
  end.

Definition is_get_to (url : string) (ev : event) : bool :=
  match ev with
  | Sent (Get u _ _) => String.eqb u url
  | _ => false
  end.

Definition count_events (p : event → bool) (l : list event) : nat :=
  length (List.filter p l).

(** How many times the 401 recovery was started. *)
Definition recoveries (l : list event) : nat := count_events is_discard l.

(** How many [GET]s went to [url]. *)
Definition gets_to (url : string) (l : list event) : nat :=
  count_events (is_get_to url) l.

(** A computation that leaves the count of [p]-events as it found it,
    whatever its outcome. *)
Definition keeps (p : event → bool) {A : Type} (m : M A) : Prop :=
  ∀ w, count_events p (log (m w).2) = count_events p (log w).

(** A computation that adds at most [k] [p]-events, whatever its
    outcome. *)
Definition adds_at_most (p : event → bool) (k : nat) {A : Type} (m : M A) : Prop :=
  ∀ w, (count_events p (log (m w).2) ≤ count_events p (log w) + k)%nat.

(** The world after the token was dropped and the record saved. *)
Definition discarded (w : world) : world :=
  let c := delete "access_token" (config w) in
  mkWorld c (Some c) (Saved c :: log w) (ticks w).

(** Turns of the [while] loop a call goes through, that is, pages it
    asks for. *)
Fixpoint fetch_turns (e : env) (fuel : nat) (url token : json)
    (params : list (string * json)) (items : list json) (w : world) : nat :=
  if negb (truthy url) then O
  else
    match fuel with
    | O => O
    | S fuel' =>
        match animelist_page e url token params items w with
        | (Ok (next_url, token', items'), w') =>
            S (fetch_turns e fuel' next_url token' [] items' w')
        | (Raise _, _) => 1%nat
        end
    end.

(** Pages a whole call asks for. *)
Definition pages_requested (e : env) (fuel : nat) (username status : string)
    (w : world) : nat :=
  match ensure_token e w with
  | (Ok _, w1) =>
      fetch_turns e fuel (JStr (animelist_url username))
        (default JNull (config w1 !! "access_token"))
        [("status", JStr status); ("limit", JInt 100)] [] w1
  | (Raise _, _) => O
  end.

(** ** Vocabulary of the proofs *)

(** What the merger emits for a retained entry: [title] and [malId]
    first, then at most [id] and [imdb_id], and nothing more when the
    identifier has no match in the map. *)
Definition emitted (m : gmap Z json) (item e : json) : Prop :=
  ∃ extra, e = JObj (base_entry item ++ extra)
           ∧ (∀ k, py_int (item_mal_id item) = Ok k → m !! k = None → extra = [])
           ∧ ∀ f, f ∈ extra.*1 → f = "id" ∨ f = "imdb_id".

(** The record after a token response [d] whose [expires_in] reads as
    [n] was applied at time [now]. *)
Definition applied_config (d : list (string * json)) (n now : Z)
    (c : gmap string json) : gmap string json :=
  let c1 := <["access_token" := dict_get "access_token" d]> c in
  let c2 := if truthy (dict_get "refresh_token" d)
            then <["refresh_token" := dict_get "refresh_token" d]> c1 else c1 in
  <["expires_at" := JInt (now + n)]> c2.

Definition applied (e : env) (d : list (string * json)) (n : Z) (w : world) : world :=
  let c := applied_config d n (clock e (ticks w)) (config w) in
  mkWorld c (Some c) (Saved c :: log w) (S (ticks w)).

(** A token response the exchange is expected to give: a record with a
    truthy [access_token] and an [expires_in] that [int] reads as [n]
    (0 when the field is missing). *)
Definition well_formed_token_response (d : list (string * json)) (n : Z) : Prop :=
  truthy (dict_get "access_token" d) = true
  ∧ py_int (dict_get_default "expires_in" (JInt 0) d) = Ok n.

(** The world after [load_config]. *)
Definition loaded (w : world) : world :=
  mkWorld (default ∅ (disk w)) (disk w) (log w) (ticks w).

(** The world after one reading of the clock. *)
Definition ticked (w : world) : world :=
  mkWorld (config w) (disk w) (log w) (S (ticks w)).

(** The world after a request was sent. *)
Definition sent (r : request) (w : world) : world :=
  mkWorld (config w) (disk w) (Sent r :: log w) (ticks w).

(** Both exchanges post a form to the token endpoint and read the
    answer the same way. *)
Definition post_for_token (e : env) (data : list (string * json)) : M json :=
  resp ← send e (Post MAL_TOKEN_URL data);
  if status_code resp =? 200 then resp_json resp else pure JNull.

(** A successful slow path: a form was posted to the token endpoint
    with the stored record loaded, the answer was a well-formed token
    response, and that response was applied. *)
Definition exchanged (e : env) (w w' : world) : Prop :=
  ∃ data w1 resp d n,
    config w1 = default ∅ (disk w) ∧ disk w1 = disk w
    ∧ (∃ older, log w1 = (Sent (Post MAL_TOKEN_URL data) :: older ++ log w)%list
                ∧ Forall (λ ev, ∃ dt, ev = Sent (Post MAL_TOKEN_URL dt)) older)
    ∧ server e (requests_of (log w1)) = Some resp
    ∧ status_code resp = 200
    ∧ body resp = Some (JObj d)
    ∧ well_formed_token_response d n
    ∧ w' = applied e d n w1.

(** ** Request handler *)

(** What the route answers: [jsonify(response_list)], the [abort(400)],
    or [jsonify({"error": str(e)}), 500], kept as the exception whose
    text is sent. *)
Inductive reply : Type :=
  | Json200 (out : list json)
  | Abort400
  | Error500 (e : exn).

(** [a or b] *)
Definition py_or (a b : json) : json := if truthy a then a else b.

(** [request.args.get(k)]: a string when the query has the key. *)
Definition arg_value (a : option string) : json :=
  match a with Some s => JStr s | None => JNull end.

(** What an f-string puts for a value.  [repr_container] stands for
    Python's rendering of lists and dicts, which the model leaves
    open. *)
Definition py_str (repr_container : json → string) (v : json) : string :=
  match v with
  | JStr s => s
  | JInt n => str_of_int n
  | JBool true => "True"
  | JBool false => "False"
  | JNull => "None"
  | JArr _ | JObj _ => repr_container v
  end.

(** [try: m except Exception as x: h x] *)
Definition try_except {A : Type} (m : M A) (h : exn → M A) : M A := λ w,
  match m w with
  | (Ok a, w') => (Ok a, w')
  | (Raise x, w') => h x w'
  end.

(** The three calls inside the [try] of the route. *)
Definition animelist_pipeline (e : env) (fuel : nat) (username status : string)
    : M (option reply) :=
  r ← fetch_all_animelist e fuel username status;
  match r with
  | None => pure None
  | Some animelist_items =>
      anime_ids_map ← fetch_anime_ids_map e;
      response_list ← lift (build_output_list animelist_items anime_ids_map);
      pure (Some (Json200 response_list))
  end.

(** [GET /animelist]: [arg_username] and [arg_status] are the query
    parameters, when given. *)
Definition animelist_route (repr_container : json → string) (e : env) (fuel : nat)
    (arg_username arg_status : option string) : M (option reply) :=
  cfg_username ← config_get "username";
  let username := py_or (arg_value arg_username) cfg_username in
  if negb (truthy username) then pure (Some Abort400)
  else
    let status := default "watching" arg_status in
    try_except
      (animelist_pipeline e fuel (py_str repr_container username) status)
      (λ x, pure (Some (Error500 x))).

(** ** More vocabulary of the proofs *)

(** [ensure_token] once the stored token was found not valid. *)
Definition ensure_token_slow (e : env) : M unit :=
  client_id ← config_get "client_id";
  client_secret ← config_get "client_secret";
  if negb (truthy client_id) || negb (truthy client_secret)
  then raise (RuntimeError "client_id and client_secret must be present in config")
  else
    refresh_token ← config_get "refresh_token";
    if truthy refresh_token then
      token_resp ← request_token_with_refresh e refresh_token client_id client_secret;
      if truthy token_resp then apply_token_response e token_resp
      else ensure_token_code_flow e client_id client_secret
    else ensure_token_code_flow e client_id client_secret.

(** The form of the refresh exchange and of the code exchange. *)
Definition refresh_form (c : gmap string json) : list (string * json) :=
  [("grant_type", JStr "refresh_token");
   ("client_id", default JNull (c !! "client_id"));
   ("client_secret", default JNull (c !! "client_secret"));
   ("refresh_token", default JNull (c !! "refresh_token"))].

Definition code_form (c : gmap string json) : list (string * json) :=
  [("grant_type", JStr "authorization_code");
   ("code", default JNull (c !! "authorization_code"));
   ("code_verifier", default JNull (c !! "code_verifier"));
   ("client_id", default JNull (c !! "client_id"));
   ("client_secret", default JNull (c !! "client_secret"))].

Definition is_saved (ev : event) : bool :=
  match ev with Saved _ => true | Sent _ => false end.

Definition is_request (ev : event) : bool :=
  match ev with Sent _ => true | Saved _ => false end.

Definition is_get (ev : event) : bool :=
  match ev with Sent (Get _ _ _) => true | _ => false end.

Definition is_get_with_params (ev : event) : bool :=
  match ev with
  | Sent (Get _ _ (_ :: _)) => true
  | _ => false
  end.

(** A computation that only appends to the log, and only events that
    satisfy [P]. *)
Definition emits (P : event → Prop) {A : Type} (m : M A) : Prop :=
  ∀ w, ∃ new, log (m w).2 = (new ++ log w)%list ∧ Forall P new.

(** What the token manager may add to the log: a form posted to the
    token endpoint, or a saved record that holds an access token. *)
Definition token_traffic (ev : event) : Prop :=
  match ev with
  | Sent (Post u _) => u = MAL_TOKEN_URL
  | Sent (Get _ _ _) => False
  | Saved c => is_Some (c !! "access_token")
  end.

(** A computation that never writes the credential file. *)
Definition keeps_file {A : Type} (m : M A) : Prop :=
  ∀ w, disk (m w).2 = disk w
       ∧ count_events is_saved (log (m w).2) = count_events is_saved (log w).

(** A computation that writes the credential file only when it
    returns. *)
Definition writes_on_return_only {A : Type} (m : M A) : Prop :=
  ∀ w x w', m w = (Raise x, w') →
            disk w' = disk w
            ∧ count_events is_saved (log w') = count_events is_saved (log w).

(** The texts of the two configuration errors. *)
Definition no_client_msg : string :=
  "client_id and client_secret must be present in config".

Definition no_token_msg : string :=
  "Could not obtain access token. Provide a valid refresh_token or authorization_code+code_verifier in config.".

(** A clock that does not run backwards from one reading to the next. *)
Definition clock_steady (e : env) (t : nat) : Prop := clock e t ≤ clock e (S t).

(** How one answer is read once the status was checked for 401: the
    status test, the envelope, the grown [items] and the next URL. *)
Definition read_page (items : list json) (resp : response)
    : result (json * list json) :=
  if negb (status_code resp =? 200)
  then Raise (RuntimeError (fetch_failed_msg resp))
  else
    match body resp with
    | None => Raise JSONDecodeError
    | Some data =>
        page_items ← py_get_default "data" (JArr []) data;
        items ← py_extend items page_items;
        paging ← py_get_default "paging" (JObj []) data;
        next_url ← py_get "next" paging;
        Ok (next_url, items)
    end.

(** What a matching cross-reference record adds to an output entry. *)
Definition enrichment (d : list (string * json)) : list (string * json) :=
  ((if not_none_or_empty (dict_get "tvdb_id" d) then [("id", dict_get "tvdb_id" d)] else [])
   ++ (if truthy (dict_get "imdb_id" d) then [("imdb_id", dict_get "imdb_id" d)] else []))%list.

(** A computation that only appends to the log. *)
Definition grows {A : Type} (m : M A) : Prop := emits (λ _, True) m.


(** A user name that is one plain path segment: not empty, and made
    of letters, digits, [_] and [-] only.  For such a name [urljoin]
    gives the base followed by the relative path, as [animelist_url]
    has it. *)
Definition segment_char (c : ascii) : bool :=
  let n := Z.of_nat (nat_of_ascii c) in
  ((48 <=? n) && (n <=? 57)) || ((65 <=? n) && (n <=? 90))
  || ((97 <=? n) && (n <=? 122)) || (n =? 95) || (n =? 45).

Definition plain_segment (u : string) : bool :=
  negb (String.eqb u "") && forallb segment_char (list_ascii_of_string u).

(** * Properties *)

(** ** [int] on strings, by example *)

Example int_of_str_plain : int_of_str "42" = Some 42.
Proof. reflexivity. Qed.

Example int_of_str_padded : int_of_str "  -1_000 " = Some (-1000).
Proof. reflexivity. Qed.

Example int_of_str_bad :
  int_of_str "tt1" = None ∧ int_of_str "" = None ∧ int_of_str "1__0" = None
  ∧ int_of_str "_1" = None ∧ int_of_str "1_" = None ∧ int_of_str "4 2" = None.
Proof. repeat split; reflexivity. Qed.

Example str_of_int_401 :
  str_of_int 401 = "401" ∧ str_of_int 0 = "0" ∧ str_of_int (-7) = "-7".
Proof. repeat split; reflexivity. Qed.

(** ** Cross-reference loader *)

Lemma dict_has_find k d : dict_has k d = true ↔ is_Some (dict_find k d).
Proof. unfold dict_has. apply bool_decide_eq_true. Qed.

Lemma dict_get_find k d v : dict_find k d = Some v → dict_get k d = v.
Proof. unfold dict_get, dict_get_default. by intros ->. Qed.

Lemma mal_id_of_spec key val : mal_id_of key val = spec_crossref_key key val.
Proof.
  unfold mal_id_of, spec_crossref_key, embedded_id.
  destruct val as [|b|z|s|l|d]; simpl; try (by destruct (int_of_str key)).
  destruct (dict_find "mal_id" d) as [v|] eqn:Hf.
  - rewrite (proj2 (dict_has_find _ _)) by (rewrite Hf; eauto).
    rewrite (dict_get_find _ _ _ Hf).
    destruct (py_int v); simpl; [reflexivity|].
    by destruct (int_of_str key).
  - destruct (dict_has "mal_id" d) eqn:Hh.
    + apply dict_has_find in Hh. rewrite Hf in Hh. by destruct Hh.
    + simpl. by destruct (int_of_str key).
Qed.

Lemma anime_ids_loop_app m l1 l2 :
  anime_ids_loop m (l1 ++ l2) = anime_ids_loop (anime_ids_loop m l1) l2.
Proof.
  revert m. induction l1 as [|[k v] l1 IH]; intros m; simpl; [done|].
  destruct (mal_id_of k v); apply IH.
Qed.

Lemma anime_ids_loop_other m l n :
  Forall (λ kv, mal_id_of kv.1 kv.2 ≠ Some n) l →
  anime_ids_loop m l !! n = m !! n.
Proof.
  intros Hl. revert m. induction Hl as [|[k v] l Hkv _ IH]; intros m; simpl; [done|].
  simpl in Hkv. destruct (mal_id_of k v) as [n'|]; [|apply IH].
  rewrite IH. apply lookup_insert_ne. congruence.
Qed.

Lemma fetch_anime_ids_map_ok e w resp kvs :
  server e (requests_of (Sent (Get ANIME_IDS_RAW_URL None []) :: log w)) = Some resp →
  (400 <=? status_code resp) && (status_code resp <? 600) = false →
  body resp = Some (JObj kvs) →
  fetch_anime_ids_map e w
  = (Ok (anime_ids_loop ∅ kvs), sent (Get ANIME_IDS_RAW_URL None []) w).
Proof.
  intros Hs Hst Hb. unfold fetch_anime_ids_map, mbind, M_bind, send.
  cbv beta zeta. rewrite Hs. unfold raise_for_status. rewrite Hst.
  unfold pure, resp_json. rewrite Hb. reflexivity.
Qed.

(** C7.  Each document entry goes under the key the specification
    derives: the embedded [mal_id] when [int] accepts it, else the
    document key when [int] accepts it; an entry with neither is passed
    over and the loop carries on, so that a document served with a
    success status always yields a map.  The document
    [{"5": {"mal_id": 42, "imdb_id": "tt1"}}] gives the one key 42. *)
Theorem crossref_key_derivation :
  (∀ key val, mal_id_of key val = spec_crossref_key key val)
  ∧ (∀ m payload key val,
       anime_ids_loop m (payload ++ [(key, val)]) =
       match spec_crossref_key key val with
       | Some n => <[n := val]> (anime_ids_loop m payload)
       | None => anime_ids_loop m payload
       end)
  ∧ (∀ e w resp kvs,
       server e (requests_of (Sent (Get ANIME_IDS_RAW_URL None []) :: log w)) = Some resp →
       (400 <=? status_code resp) && (status_code resp <? 600) = false →
       body resp = Some (JObj kvs) →
       fetch_anime_ids_map e w
       = (Ok (anime_ids_loop ∅ kvs), sent (Get ANIME_IDS_RAW_URL None []) w))
  ∧ (let val := JObj [("mal_id", JInt 42); ("imdb_id", JStr "tt1")] in
     anime_ids_loop ∅ [("5", val)] = {[ 42 := val ]}
     ∧ anime_ids_loop ∅ [("5", val)] !! 5 = None
     ∧ mal_id_of "5" val = Some 42
     ∧ mal_id_of "tt1" (JObj [("mal_id", JStr "n/a")]) = None).
Proof.
  split; [exact mal_id_of_spec|]. split; [|split].
  - intros m payload key val. rewrite anime_ids_loop_app. simpl.
    rewrite mal_id_of_spec. by destruct (spec_crossref_key key val).
  - exact fetch_anime_ids_map_ok.
  - simpl. repeat split; reflexivity.
Qed.

Lemma crossref_key_derivation_witness :
  let val := JObj [("mal_id", JInt 42); ("imdb_id", JStr "tt1")] in
  let doc := [("5", val); ("notes", JStr "free text"); ("tt1", JObj [("mal_id", JNull)])] in
  let e := mkEnv (λ _, Some (mkResponse 200 "" (Some (JObj doc)))) (λ _, 0) in
  fetch_anime_ids_map e (mkWorld ∅ None [] 0)
  = (Ok {[ 42 := val ]}, mkWorld ∅ None [Sent (Get ANIME_IDS_RAW_URL None [])] 0).
Proof.
  intros val doc e.
  destruct crossref_key_derivation as (_ & _ & Hfetch & _).
  rewrite (Hfetch e (mkWorld ∅ None [] 0) (mkResponse 200 "" (Some (JObj doc))) doc);
    reflexivity.
Defined.

(** C10.  When several entries derive the same key, the value of the
    one met last is the one the map holds, and it is the only value
    under that key. *)
Theorem crossref_last_entry_wins (m : gmap Z json) (before after : list (string * json))
    (key : string) (val : json) (n : Z) :
  mal_id_of key val = Some n →
  Forall (λ kv, mal_id_of kv.1 kv.2 ≠ Some n) after →
  anime_ids_loop m (before ++ (key, val) :: after) !! n = Some val
  ∧ ∀ v', anime_ids_loop m (before ++ (key, val) :: after) !! n = Some v' → v' = val.
Proof.
  intros Hk Hafter.
  assert (anime_ids_loop m (before ++ (key, val) :: after) !! n = Some val) as H.
  { rewrite anime_ids_loop_app. simpl. rewrite Hk.
    rewrite anime_ids_loop_other by done. apply lookup_insert_eq. }
  split; [exact H|]. intros v' Hv'. congruence.
Qed.

Lemma crossref_last_entry_wins_witness :
  let first := ("5", JObj [("mal_id", JInt 42); ("imdb_id", JStr "tt1")]) in
  let last := JObj [("imdb_id", JStr "tt2")] in
  anime_ids_loop ∅ (first :: ("42", last) :: [("7", JObj [])]) !! 42 = Some last.
Proof.
  intros first last.
  apply (crossref_last_entry_wins ∅ [first] [("7", JObj [])] "42" last 42).
  - reflexivity.
  - repeat constructor. simpl. vm_compute. discriminate.
Defined.

(** ** Enrichment merger *)

Lemma add_ids_extends entry mapped entry' :
  add_ids entry mapped = Ok entry' →
  ∃ extra, entry' = (entry ++ extra)%list
           ∧ ∀ f, f ∈ extra.*1 → f = "id" ∨ f = "imdb_id".
Proof.
  unfold add_ids.
  assert (∀ k : string, k ∈ ([] : list (string * json)).*1 → k = "id" ∨ k = "imdb_id") as Hnil
    by (intros k Hk; simpl in Hk; by apply elem_of_nil in Hk).
  destruct mapped as [|b|z|s|l|d]; simpl; try discriminate.
  - repeat case_match; simpl; try discriminate.
    intros [= <-]. exists []. by rewrite app_nil_r.
  - repeat case_match; simpl; try discriminate.
    intros [= <-]. exists []. by rewrite app_nil_r.
  - set (e1 := if dict_has "tvdb_id" d then _ else _).
    assert (∃ x1, e1 = Ok (entry ++ x1)%list ∧ ∀ f, f ∈ x1.*1 → f = "id") as (x1 & -> & Hx1).
    { subst e1. destruct (dict_has "tvdb_id" d); simpl.
      - destruct (not_none_or_empty _).
        + eexists; split; [reflexivity|]. intros f Hf. simpl in Hf.
          by apply list_elem_of_singleton in Hf.
        + exists []. rewrite app_nil_r. split; [done|].
          intros f Hf. by apply elem_of_nil in Hf.
      - exists []. rewrite app_nil_r. split; [done|].
        intros f Hf. by apply elem_of_nil in Hf. }
    simpl. destruct (dict_has "imdb_id" d); simpl.
    + destruct (truthy _); intros [= <-].
      * exists (x1 ++ [("imdb_id", dict_get_default "imdb_id" JNull d)])%list.
        rewrite app_assoc. split; [done|].
        intros f Hf. rewrite fmap_app in Hf. apply elem_of_app in Hf as [Hf|Hf].
        -- left. by apply Hx1.
        -- right. simpl in Hf. by apply list_elem_of_singleton in Hf.
      * exists x1. split; [done|]. intros f Hf. left. by apply Hx1.
    + intros [= <-]. exists x1. split; [done|]. intros f Hf. left. by apply Hx1.
Qed.

Lemma add_ids_record entry d : ∃ entry', add_ids entry (JObj d) = Ok entry'.
Proof.
  unfold add_ids. simpl.
  destruct (dict_has "tvdb_id" d); simpl;
    destruct (dict_has "imdb_id" d); simpl; eauto.
Qed.

(** [output_entry] read through the accessors of the specification. *)
Lemma output_entry_kept item m r :
  output_entry item m = Ok r →
  match r with
  | None => truthy (item_mal_id item) = false
  | Some e =>
      truthy (item_mal_id item) = true
      ∧ ∃ extra, e = JObj (base_entry item ++ extra)
                 ∧ (∀ k, py_int (item_mal_id item) = Ok k → m !! k = None → extra = [])
                 ∧ ∀ f, f ∈ extra.*1 → f = "id" ∨ f = "imdb_id"
  end.
Proof.
  unfold output_entry, base_entry, item_mal_id, item_title, item_node.
  destruct item as [|b|z|s|l|d]; simpl; try discriminate.
  set (n := dict_get_default "node" JNull d).
  change (dict_get "node" d) with n.
  set (node := if truthy n then n else JObj []).
  destruct node as [|b|z|s|l|nd] eqn:Hnode; simpl; try discriminate.
  change (dict_get_default "id" JNull nd) with (dict_get "id" nd).
  change (dict_get_default "title" JNull nd) with (dict_get "title" nd).
  destruct (truthy (dict_get "id" nd)) eqn:Hid; simpl.
  - destruct (py_int (dict_get "id" nd)) as [k|] eqn:Hk; simpl; [|discriminate].
    destruct (m !! k) as [mapped|] eqn:Hm; simpl.
    + destruct (truthy mapped).
      * destruct (add_ids _ mapped) as [entry'|] eqn:Ha; simpl; [|discriminate].
        intros [= <-]. split; [done|].
        apply add_ids_extends in Ha as (extra & -> & Hx).
        exists extra. split; [done|]. split; [|done].
        intros k' [= <-]. congruence.
      * intros [= <-]. split; [done|]. exists []. split; [done|].
        split; [done|]. intros f Hf. by apply elem_of_nil in Hf.
    + intros [= <-]. split; [done|]. exists []. split; [done|].
      split; [done|]. intros f Hf. by apply elem_of_nil in Hf.
  - by intros [= <-].
Qed.

Lemma output_entry_total item m :
  entry_ok item = true → map_Forall (λ _ v, crossref_ok v = true) m →
  ∃ r, output_entry item m = Ok r.
Proof.
  intros Hitem Hm. unfold output_entry, entry_ok in *.
  destruct item as [|b|z|s|l|d]; simpl in *; try discriminate.
  change (dict_get_default "node" JNull d) with (dict_get "node" d).
  destruct (truthy (dict_get "node" d)); simpl; [|eauto].
  destruct (dict_get "node" d) as [|b|z|s|l|nd]; simpl; try discriminate.
  change (dict_get_default "id" JNull nd) with (dict_get "id" nd).
  destruct (dict_get "id" nd) as [|b|k|s|l|x] eqn:Hid; simpl; try discriminate; [eauto|].
  destruct (negb (k =? 0)); simpl; [|eauto].
  destruct (m !! k) as [mapped|] eqn:Hk; simpl; [|eauto].
  apply Hm in Hk. destruct mapped as [|b|z|s|l|md]; simpl in *; try discriminate.
  destruct md; [eauto|].
  destruct (add_ids_record [("title", dict_get_default "title" JNull nd); ("malId", JInt k)]
              (p :: md)) as [entry' ->].
  simpl. eauto.
Qed.

Lemma build_output_loop_app out l1 l2 m :
  build_output_loop out (l1 ++ l2) m =
  build_output_loop out l1 m ≫= λ out', build_output_loop out' l2 m.
Proof.
  revert out. induction l1 as [|item l1 IH]; intros out; simpl; [done|].
  destruct (output_entry item m) as [[entry|]|]; simpl; auto.
Qed.

Lemma build_output_loop_kept (R : json → json → Prop) m :
  (∀ item e, output_entry item m = Ok (Some e) →
             truthy (item_mal_id item) = true ∧ R item e) →
  (∀ item, output_entry item m = Ok None → truthy (item_mal_id item) = false) →
  ∀ items out res,
    build_output_loop out items m = Ok res →
    ∃ new, res = (out ++ new)%list
           ∧ Forall2 R (List.filter (λ i, truthy (item_mal_id i)) items) new.
Proof.
  intros Hsome Hnone. induction items as [|item items IH]; intros out res; simpl.
  - intros [= <-]. exists []. by rewrite app_nil_r.
  - destruct (output_entry item m) as [[entry|]|] eqn:Hi; simpl; [| |discriminate].
    + intros Hres. apply IH in Hres as (new & -> & Hnew).
      destruct (Hsome _ _ Hi) as [-> HR].
      exists (entry :: new). rewrite <- app_assoc. split; [done|].
      by constructor.
    + intros Hres. apply IH in Hres as (new & -> & Hnew).
      rewrite (Hnone _ Hi). eauto.
Qed.

(** C8.  On entries and cross-reference values of the data model the
    merger returns; whenever it returns, the output lists, in input
    order, exactly the entries with a truthy identifier, each with
    [title] and [malId], and with nothing else when the map has no
    match. *)
Theorem build_output_list_order_and_base (items : list json) (m : gmap Z json) :
  (Forall (λ i, entry_ok i = true) items →
   map_Forall (λ _ v, crossref_ok v = true) m →
   ∃ out, build_output_list items m = Ok out)
  ∧ ∀ out, build_output_list items m = Ok out →
      Forall2 (emitted m) (List.filter (λ i, truthy (item_mal_id i)) items) out.
Proof.
  split.
  - intros Hitems Hm. unfold build_output_list. generalize (@nil json) as out.
    induction Hitems as [|item items Hi _ IH]; intros out; simpl; [eauto|].
    destruct (output_entry_total item m Hi Hm) as [[entry|] ->]; simpl; apply IH.
  - intros out Hout. unfold build_output_list in Hout.
    eapply build_output_loop_kept in Hout as (new & -> & Hnew); [exact Hnew| |].
    + intros item e He. apply output_entry_kept in He as [Hid Hx]. by split.
    + intros item He. by apply output_entry_kept in He.
Qed.

Lemma build_output_list_order_and_base_witness :
  let a := JObj [("node", JObj [("id", JInt 1); ("title", JStr "A")])] in
  let b := JObj [("node", JObj [("id", JInt 7); ("title", JStr "B")])] in
  let m : gmap Z json := {[ 1 := JObj [("imdb_id", JStr "tt9")] ]} in
  ∃ out, build_output_list [a; b] m = Ok out
         ∧ Forall2 (emitted m) [a; b] out.
Proof.
  intros a b m.
  destruct (build_output_list_order_and_base [a; b] m) as [Htotal Hshape].
  destruct Htotal as [out Hout].
  - repeat constructor.
  - intros k v Hkv. apply lookup_singleton_Some in Hkv as [_ <-]. reflexivity.
  - exists out. split; [exact Hout|]. exact (Hshape out Hout).
Defined.

(** C9.  An entry whose node has no truthy identifier, 0 included, is
    passed over: the merger behaves as if the entry were not in the
    list. *)
Theorem build_output_list_drops_falsy_id (before after : list json) (item : json)
    (m : gmap Z json) :
  (∃ d, item = JObj d) →
  (∃ nd, item_node item = JObj nd) →
  truthy (item_mal_id item) = false →
  build_output_list (before ++ item :: after) m = build_output_list (before ++ after) m.
Proof.
  intros [d ->] [nd Hnode] Hid.
  assert (output_entry (JObj d) m = Ok None) as Hdrop.
  { unfold item_mal_id in Hid. rewrite Hnode in Hid.
    unfold item_node in Hnode. unfold output_entry. simpl.
    change (dict_get_default "node" JNull d) with (dict_get "node" d).
    rewrite Hnode. simpl.
    change (dict_get_default "id" JNull nd) with (dict_get "id" nd).
    by rewrite Hid. }
  unfold build_output_list. rewrite !build_output_loop_app.
  destruct (build_output_loop [] before m) as [out|]; simpl; [|done].
  by rewrite Hdrop.
Qed.

Lemma build_output_list_drops_falsy_id_witness :
  let a := JObj [("node", JObj [("id", JInt 1); ("title", JStr "A")])] in
  let zero := JObj [("node", JObj [("id", JInt 0); ("title", JStr "Z")])] in
  build_output_list [a; zero; a] ∅ = build_output_list [a; a] ∅
  ∧ build_output_list [a; zero; a] ∅
    = Ok [JObj [("title", JStr "A"); ("malId", JInt 1)];
          JObj [("title", JStr "A"); ("malId", JInt 1)]].
Proof.
  intros a zero. split; [|reflexivity].
  apply (build_output_list_drops_falsy_id [a] [a] zero ∅).
  - eexists. reflexivity.
  - eexists. reflexivity.
  - reflexivity.
Defined.

(** ** Token manager *)

Lemma apply_token_response_ok e d n w :
  well_formed_token_response d n →
  apply_token_response e (JObj d) w = (Ok (), applied e d n w).
Proof.
  intros [Hat Hn]. unfold apply_token_response, applied, applied_config.
  unfold mbind, M_bind, lift, py_get, py_get_default; simpl.
  change (dict_get_default "access_token" JNull d) with (dict_get "access_token" d).
  change (dict_get_default "refresh_token" JNull d) with (dict_get "refresh_token" d).
  rewrite Hat. simpl.
  destruct (truthy (dict_get "refresh_token" d)); simpl; rewrite Hn; reflexivity.
Qed.

Lemma apply_token_response_inv e resp w w' :
  apply_token_response e resp w = (Ok (), w') →
  ∃ d n, resp = JObj d ∧ well_formed_token_response d n ∧ w' = applied e d n w.
Proof.
  destruct resp as [|b|z|s|l|d]; try (by intros [=]).
  intros H. exists d.
  destruct (truthy (dict_get "access_token" d)) eqn:Hat.
  - destruct (py_int (dict_get_default "expires_in" (JInt 0) d)) as [n|x] eqn:Hn.
    + exists n. split; [done|]. split; [done|].
      rewrite (apply_token_response_ok e d n w) in H by done. congruence.
    + exfalso. revert H. unfold apply_token_response.
      unfold mbind, M_bind, lift, py_get, py_get_default; simpl.
      change (dict_get_default "access_token" JNull d) with (dict_get "access_token" d).
      rewrite Hat. simpl.
      destruct (truthy (dict_get_default "refresh_token" JNull d)); simpl;
        rewrite Hn; discriminate.
  - exfalso. revert H. unfold apply_token_response.
    unfold mbind, M_bind, lift, py_get, py_get_default; simpl.
    change (dict_get_default "access_token" JNull d) with (dict_get "access_token" d).
    rewrite Hat. discriminate.
Qed.

(** C5.  Applying a well-formed response succeeds; the stored
    [refresh_token] changes only to a [refresh_token] the response
    holds, stays as it was when the response holds none, and no field
    other than [access_token], [refresh_token] and [expires_at] is
    touched. *)
Theorem apply_token_response_frame (e : env) (d : list (string * json)) (n : Z) (w : world) :
  well_formed_token_response d n →
  ∃ w', apply_token_response e (JObj d) w = (Ok (), w')
        ∧ (config w' !! "refresh_token" ≠ config w !! "refresh_token" →
           dict_find "refresh_token" d = config w' !! "refresh_token")
        ∧ (dict_find "refresh_token" d = None →
           config w' !! "refresh_token" = config w !! "refresh_token")
        ∧ ∀ k, k ≠ "access_token" → k ≠ "refresh_token" → k ≠ "expires_at" →
               config w' !! k = config w !! k.
Proof.
  intros Hwf. exists (applied e d n w). split; [by apply apply_token_response_ok|].
  unfold applied, applied_config; simpl.
  split; [|split].
  - rewrite lookup_insert_ne by done.
    unfold dict_get, dict_get_default.
    destruct (dict_find "refresh_token" d) as [rt|]; simpl.
    + destruct (truthy rt).
      * by rewrite lookup_insert_eq.
      * rewrite lookup_insert_ne by done. congruence.
    + rewrite lookup_insert_ne by done. congruence.
  - intros Hnone. rewrite lookup_insert_ne by done.
    unfold dict_get at 1, dict_get_default. rewrite Hnone. simpl.
    by rewrite lookup_insert_ne.
  - intros k H1 H2 H3. rewrite lookup_insert_ne by done.
    destruct (truthy (dict_get "refresh_token" d)).
    + rewrite lookup_insert_ne by done. by rewrite lookup_insert_ne.
    + by rewrite lookup_insert_ne.
Qed.

Lemma apply_token_response_frame_witness :
  let d := [("access_token", JStr "tok"); ("expires_in", JInt 3600)] in
  let c : gmap string json := {[ "refresh_token" := JStr "r0" ]} in
  ∃ w', apply_token_response (mkEnv (λ _, None) (λ _, 1000)) (JObj d)
          (mkWorld c None [] 0) = (Ok (), w')
        ∧ config w' !! "refresh_token" = Some (JStr "r0").
Proof.
  intros d c.
  destruct (apply_token_response_frame (mkEnv (λ _, None) (λ _, 1000)) d 3600
              (mkWorld c None [] 0)) as (w' & Hrun & _ & Hkeep & _).
  - split; reflexivity.
  - exists w'. split; [exact Hrun|]. rewrite Hkeep; reflexivity.
Defined.

(** C6.  With the clock reading [now] both times, applying a
    well-formed response a second time leaves [access_token] and
    [expires_at] (indeed the whole record) as the first application
    left them. *)
Theorem apply_token_response_idempotent (e : env) (d : list (string * json)) (n now : Z)
    (w : world) :
  well_formed_token_response d n →
  clock e (ticks w) = now →
  clock e (S (ticks w)) = now →
  ∃ w1 w2,
    apply_token_response e (JObj d) w = (Ok (), w1)
    ∧ apply_token_response e (JObj d) w1 = (Ok (), w2)
    ∧ config w2 !! "access_token" = config w1 !! "access_token"
    ∧ config w2 !! "expires_at" = config w1 !! "expires_at"
    ∧ config w1 !! "access_token" = Some (dict_get "access_token" d)
    ∧ config w1 !! "expires_at" = Some (JInt (now + n))
    ∧ config w2 = config w1.
Proof.
  intros Hwf Hnow1 Hnow2.
  exists (applied e d n w), (applied e d n (applied e d n w)).
  split; [by apply apply_token_response_ok|].
  split; [by apply apply_token_response_ok|].
  assert (config (applied e d n (applied e d n w)) = config (applied e d n w)) as Heq.
  { unfold applied, applied_config; simpl. rewrite Hnow1, Hnow2.
    apply map_eq. intros k.
    destruct (truthy (dict_get "refresh_token" d));
      rewrite !lookup_insert; repeat case_decide; congruence. }
  rewrite Heq. repeat split; try done.
  - unfold applied, applied_config; simpl.
    rewrite lookup_insert_ne by done.
    destruct (truthy (dict_get "refresh_token" d)).
    + rewrite lookup_insert_ne by done. by rewrite lookup_insert_eq.
    + by rewrite lookup_insert_eq.
  - unfold applied, applied_config; simpl. rewrite Hnow1. by rewrite lookup_insert_eq.
Qed.

Lemma apply_token_response_idempotent_witness :
  let d := [("access_token", JStr "tok"); ("refresh_token", JStr "r1");
            ("expires_in", JStr "3600")] in
  let e := mkEnv (λ _, None) (λ _, 1000) in
  ∃ w1 w2,
    apply_token_response e (JObj d) (mkWorld ∅ None [] 0) = (Ok (), w1)
    ∧ apply_token_response e (JObj d) w1 = (Ok (), w2)
    ∧ config w2 !! "expires_at" = Some (JInt 4600).
Proof.
  intros d e.
  destruct (apply_token_response_idempotent e d 3600 1000 (mkWorld ∅ None [] 0))
    as (w1 & w2 & H1 & H2 & _ & Hexp & _ & Hexp1 & _).
  - split; reflexivity.
  - reflexivity.
  - reflexivity.
  - exists w1, w2. split; [exact H1|]. split; [exact H2|].
    rewrite Hexp. exact Hexp1.
Defined.

(** *** Stepping through the state monad *)

Lemma bind_inv {A B} (m : M A) (f : A → M B) w r w' :
  (m ≫= f) w = (r, w') →
  (∃ a w1, m w = (Ok a, w1) ∧ f a w1 = (r, w'))
  ∨ (∃ x, m w = (Raise x, w') ∧ r = Raise x).
Proof.
  unfold mbind, M_bind. destruct (m w) as [[a|x] w1].
  - intros H. left. eauto.
  - intros [= <- <-]. right. eauto.
Qed.

Lemma bind_ok_inv {A B} (m : M A) (f : A → M B) w b w' :
  (m ≫= f) w = (Ok b, w') →
  ∃ a w1, m w = (Ok a, w1) ∧ f a w1 = (Ok b, w').
Proof.
  intros H. apply bind_inv in H as [H|(x & _ & [=])]. exact H.
Qed.

Lemma token_is_valid_eq e w :
  token_is_valid e w =
  if truthy (default JNull (config w !! "access_token")) then
    match py_int (default (JInt 0) (config w !! "expires_at")) with
    | Ok n => (Ok (clock e (ticks w) + 60 <? n), ticked w)
    | Raise x => (Raise x, ticked w)
    end
  else (Ok false, w).
Proof.
  unfold token_is_valid, mbind, M_bind, config_get, config_get_default, lift, pure, now_ts.
  simpl. destruct (truthy _); simpl; [|done].
  by destruct (py_int _).
Qed.

Lemma post_for_token_inv e data w r w' :
  post_for_token e data w = (r, w') →
  w' = sent (Post MAL_TOKEN_URL data) w
  ∧ ∀ j, r = Ok j → truthy j = true →
         ∃ resp, server e (requests_of (log w')) = Some resp
                 ∧ status_code resp = 200 ∧ body resp = Some j.
Proof.
  unfold post_for_token, mbind, M_bind, send, sent. simpl.
  destruct (server e _) as [resp|] eqn:Hs.
  - destruct (status_code resp =? 200) eqn:Hst.
    + unfold resp_json, pure, raise. destruct (body resp) as [j|] eqn:Hb.
      * intros [= <- <-]. split; [done|]. intros j' [= <-] _. simpl.
        exists resp. split; [done|]. split; [lia|done].
      * intros [= <- <-]. split; [done|]. intros j' [=].
    + unfold pure. intros [= <- <-]. split; [done|]. intros j' [= <-] [=].
  - intros [= <- <-]. split; [done|]. intros j' [=].
Qed.

Lemma ensure_token_code_flow_inv e cid cs w w' :
  ensure_token_code_flow e cid cs w = (Ok (), w') →
  ∃ data w1 resp d n,
    w1 = sent (Post MAL_TOKEN_URL data) w
    ∧ server e (requests_of (log w1)) = Some resp
    ∧ status_code resp = 200
    ∧ body resp = Some (JObj d)
    ∧ well_formed_token_response d n
    ∧ w' = applied e d n w1.
Proof.
  unfold ensure_token_code_flow. intros H.
  apply bind_ok_inv in H as (code & w1 & [= <- <-] & H).
  apply bind_ok_inv in H as (ver & w1 & [= <- <-] & H).
  destruct (truthy _ && truthy _); [|discriminate].
  apply bind_ok_inv in H as (j & w1 & Hpost & H).
  change (request_token_with_code e ?a ?b ?c ?d) with
    (post_for_token e [("grant_type", JStr "authorization_code"); ("code", a);
                       ("code_verifier", b); ("client_id", c); ("client_secret", d)])
    in Hpost.
  apply post_for_token_inv in Hpost as [-> Hresp].
  destruct (truthy j) eqn:Hj; [|discriminate].
  destruct (Hresp j eq_refl Hj) as (resp & Hs & Hst & Hb).
  apply apply_token_response_inv in H as (d & n & -> & Hwf & ->).
  eauto 12.
Qed.

Lemma ensure_token_inv e w w' :
  ensure_token e w = (Ok (), w') →
  (w' = ticked (loaded w)
   ∧ truthy (default JNull (config (loaded w) !! "access_token")) = true
   ∧ ∃ n, py_int (default (JInt 0) (config (loaded w) !! "expires_at")) = Ok n
          ∧ clock e (ticks w) + 60 < n)
  ∨ exchanged e w w'.
Proof.
  unfold ensure_token. intros H.
  apply bind_ok_inv in H as ([] & w0 & [= <-] & H). fold (loaded w) in H.
  apply bind_ok_inv in H as (valid & w1 & Hvalid & H).
  rewrite token_is_valid_eq in Hvalid.
  destruct valid.
  - left. injection H as <-.
    destruct (truthy _) eqn:Hat; [|discriminate].
    destruct (py_int _) as [n|] eqn:Hn; [|discriminate].
    injection Hvalid as Hlt <-. split; [done|]. split; [done|].
    exists n. split; [done|]. apply Z.ltb_lt in Hlt. exact Hlt.
  - right.
    assert (config w1 = default ∅ (disk w) ∧ disk w1 = disk w ∧ log w1 = log w)
      as (Hc & Hd & Hl).
    { destruct (truthy _); [destruct (py_int _)|]; by simplify_eq. }
    clear Hvalid.
    apply bind_ok_inv in H as (cid & w2 & [= <- <-] & H).
    apply bind_ok_inv in H as (cs & w2 & [= <- <-] & H).
    destruct (negb _ || negb _); [discriminate|].
    apply bind_ok_inv in H as (rt & w2 & [= <- <-] & H).
    set (cid := default JNull (config w1 !! "client_id")) in *.
    set (cs := default JNull (config w1 !! "client_secret")) in *.
    destruct (truthy _).
    + apply bind_ok_inv in H as (j & w2 & Hpost & H).
      change (request_token_with_refresh e ?a ?b ?c) with
        (post_for_token e [("grant_type", JStr "refresh_token"); ("client_id", b);
                           ("client_secret", c); ("refresh_token", a)]) in Hpost.
      apply post_for_token_inv in Hpost as [-> Hresp].
      destruct (truthy j) eqn:Hj.
      * destruct (Hresp j eq_refl Hj) as (resp & Hs & Hst & Hb).
        apply apply_token_response_inv in H as (d & n & -> & Hwf & ->).
        eexists _, (sent _ w1), resp, d, n. split; [exact Hc|]. split; [exact Hd|].
        split; [exists []; simpl; rewrite Hl; split; [reflexivity|constructor]|].
        done.
      * apply ensure_token_code_flow_inv in H
          as (data & w3 & resp & d & n & -> & Hs & Hst & Hb & Hwf & ->).
        eexists data, (sent _ (sent _ w1)), resp, d, n.
        split; [exact Hc|]. split; [exact Hd|].
        split; [|done]. eexists [_]. simpl. rewrite Hl. split; [reflexivity|].
        repeat constructor. eauto.
    + apply ensure_token_code_flow_inv in H
        as (data & w3 & resp & d & n & -> & Hs & Hst & Hb & Hwf & ->).
      eexists data, (sent _ w1), resp, d, n. split; [exact Hc|]. split; [exact Hd|].
      split; [|done]. exists []. simpl. rewrite Hl. split; [reflexivity|constructor].
Qed.

(** C2 as the claim words it, [expires_at >= now + 60], fails at the
    boundary: with exactly 60 seconds left the stored token is not
    taken as valid and a refresh request goes out. *)
Lemma ensure_token_sixty_seconds_left_refreshes :
  let c : gmap string json :=
    list_to_map [("client_id", JStr "id"); ("client_secret", JStr "sec");
                 ("refresh_token", JStr "r0"); ("access_token", JStr "tok");
                 ("expires_at", JInt 1060)] in
  let answer := mkResponse 200 ""
                  (Some (JObj [("access_token", JStr "new"); ("expires_in", JInt 3600)])) in
  let e := mkEnv (λ _, Some answer) (λ _, 1000) in
  let w := mkWorld c (Some c) [] 0 in
  c !! "access_token" = Some (JStr "tok")
  ∧ c !! "expires_at" = Some (JInt 1060)
  ∧ 1060 >= clock e (ticks w) + 60
  ∧ (ensure_token e w).1 = Ok ()
  ∧ requests_of (log (ensure_token e w).2) =
      [Post MAL_TOKEN_URL [("grant_type", JStr "refresh_token"); ("client_id", JStr "id");
                           ("client_secret", JStr "sec"); ("refresh_token", JStr "r0")]]
  ∧ config (ensure_token e w).2 !! "access_token" = Some (JStr "new").
Proof.
  intros c answer e w. repeat split; try reflexivity. simpl. lia.
Qed.

(** C2, amended.  When the stored record holds a truthy access token
    and [now + 60 < expires_at], [ensure_token] returns at once: no
    request is sent, the file is not written, and the record in memory
    is the stored one. *)
Theorem ensure_token_fast_path (e : env) (w : world) (c : gmap string json) (n : Z) :
  disk w = Some c →
  truthy (default JNull (c !! "access_token")) = true →
  py_int (default (JInt 0) (c !! "expires_at")) = Ok n →
  clock e (ticks w) + 60 < n →
  ensure_token e w = (Ok (), mkWorld c (Some c) (log w) (S (ticks w))).
Proof.
  intros Hd Hat Hn Hlt. unfold ensure_token, mbind, M_bind, load_config.
  rewrite token_is_valid_eq. simpl. rewrite Hd. simpl. rewrite Hat, Hn.
  apply Z.ltb_lt in Hlt. rewrite Hlt. unfold ticked, pure. simpl. reflexivity.
Qed.

Lemma ensure_token_fast_path_witness :
  let c : gmap string json :=
    list_to_map [("access_token", JStr "tok"); ("expires_at", JInt 1061)] in
  ensure_token (mkEnv (λ _, None) (λ _, 1000)) (mkWorld ∅ (Some c) [] 0)
  = (Ok (), mkWorld c (Some c) [] 1).
Proof.
  intros c.
  apply (ensure_token_fast_path (mkEnv (λ _, None) (λ _, 1000))
           (mkWorld ∅ (Some c) [] 0) c 1061).
  - reflexivity.
  - reflexivity.
  - reflexivity.
  - simpl. lia.
Defined.

(** C1 as the claim words it fails when the response has no
    [expires_in]: [ensure_token] returns, and the stored [expires_at]
    is the time of the call itself, not a later one. *)
Lemma ensure_token_without_expires_in_is_expired :
  let c : gmap string json :=
    list_to_map [("client_id", JStr "id"); ("client_secret", JStr "sec");
                 ("refresh_token", JStr "r0")] in
  let answer := mkResponse 200 "" (Some (JObj [("access_token", JStr "tok")])) in
  let e := mkEnv (λ _, Some answer) (λ _, 1000) in
  let w := mkWorld ∅ (Some c) [] 0 in
  (ensure_token e w).1 = Ok ()
  ∧ config (ensure_token e w).2 !! "access_token" = Some (JStr "tok")
  ∧ config (ensure_token e w).2 !! "expires_at" = Some (JInt 1000)
  ∧ ∀ t, ¬ (clock e t < 1000).
Proof.
  intros c answer e w. repeat split; try reflexivity. simpl. lia.
Qed.

Lemma applied_access_token e d n w :
  config (applied e d n w) !! "access_token" = Some (dict_get "access_token" d).
Proof.
  unfold applied, applied_config; simpl. rewrite lookup_insert_ne by done.
  destruct (truthy (dict_get "refresh_token" d)).
  - rewrite lookup_insert_ne by done. by rewrite lookup_insert_eq.
  - by rewrite lookup_insert_eq.
Qed.

Lemma applied_expires_at e d n w :
  config (applied e d n w) !! "expires_at" = Some (JInt (clock e (ticks w) + n)).
Proof. unfold applied, applied_config; simpl. by rewrite lookup_insert_eq. Qed.

(** C1, amended.  When [ensure_token] returns, the record in memory is
    the record on disk and holds a truthy access token.  Either nothing
    was requested and [now + 60 < expires_at] for the time read, or a
    token response was applied and [expires_at] is the time read then
    plus [int(expires_in)], [expires_in] counting as 0 when missing, so
    that a response without [expires_in] leaves a token that is
    expired from the start. *)
Theorem ensure_token_postcondition (e : env) (w w' : world) :
  ensure_token e w = (Ok (), w') →
  disk w' = Some (config w')
  ∧ (∃ tok, config w' !! "access_token" = Some tok ∧ truthy tok = true)
  ∧ ((log w' = log w
      ∧ ∃ n, py_int (default (JInt 0) (config w' !! "expires_at")) = Ok n
             ∧ clock e (ticks w) + 60 < n)
     ∨ (∃ resp d n t,
          server e (requests_of (log w')) = Some resp
          ∧ status_code resp = 200
          ∧ body resp = Some (JObj d)
          ∧ py_int (dict_get_default "expires_in" (JInt 0) d) = Ok n
          ∧ ticks w' = S t
          ∧ config w' !! "access_token" = Some (dict_get "access_token" d)
          ∧ config w' !! "expires_at" = Some (JInt (clock e t + n))
          ∧ (dict_find "expires_in" d = None →
             config w' !! "expires_at" = Some (JInt (clock e t))))).
Proof.
  intros H. apply ensure_token_inv in H as [(-> & Hat & n & Hn & Hlt)|Hx].
  - simpl in *. destruct (disk w) as [c|] eqn:Hd; simpl in *; [|by rewrite lookup_empty in Hat].
    split; [done|]. split.
    + destruct (c !! "access_token") as [tok|]; [eauto|discriminate].
    + left. eauto.
  - destruct Hx as (data & w1 & resp & d & n & Hc & Hd & Hlog & Hs & Hst & Hb & Hwf & ->).
    split; [done|]. split.
    + exists (dict_get "access_token" d). split; [apply applied_access_token|apply Hwf].
    + right. exists resp, d, n, (ticks w1).
      split; [exact Hs|]. split; [exact Hst|]. split; [exact Hb|].
      split; [apply Hwf|]. split; [done|].
      split; [apply applied_access_token|]. split; [apply applied_expires_at|].
      intros Hnone. rewrite applied_expires_at.
      destruct Hwf as [_ Hn]. unfold dict_get_default in Hn. rewrite Hnone in Hn.
      simpl in Hn. injection Hn as <-. by rewrite Z.add_0_r.
Qed.

Lemma ensure_token_postcondition_witness :
  let c : gmap string json :=
    list_to_map [("client_id", JStr "id"); ("client_secret", JStr "sec");
                 ("refresh_token", JStr "r0")] in
  let answer := mkResponse 200 ""
                  (Some (JObj [("access_token", JStr "tok"); ("expires_in", JInt 3600)])) in
  let e := mkEnv (λ _, Some answer) (λ _, 1000) in
  let w' := (ensure_token e (mkWorld ∅ (Some c) [] 0)).2 in
  disk w' = Some (config w').
Proof.
  intros c answer e w'.
  apply (ensure_token_postcondition e (mkWorld ∅ (Some c) [] 0) w').
  reflexivity.
Defined.

(** ** List fetcher *)

(** *** Events the token manager adds are neither discards nor list
    requests *)

Section Counting.
Variable p : event → bool.
Hypothesis p_post : ∀ u d, p (Sent (Post u d)) = false.
Hypothesis p_saved : ∀ c, is_Some (c !! "access_token") → p (Saved c) = false.

Lemma keeps_bind {A B} (m : M A) (f : A → M B) :
  keeps p m → (∀ a, keeps p (f a)) → keeps p (m ≫= f).
Proof.
  intros Hm Hf w. specialize (Hm w). unfold mbind, M_bind.
  destruct (m w) as [[a|x] w1]; simpl in *; [|exact Hm].
  rewrite <- Hm. apply Hf.
Qed.

Lemma keeps_silent {A} (m : M A) : (∀ w, log (m w).2 = log w) → keeps p m.
Proof. intros H w. by rewrite H. Qed.

Lemma keeps_post e u d : keeps p (send e (Post u d)).
Proof.
  intros w. unfold send. destruct (server e _); simpl;
    unfold count_events; simpl; by rewrite p_post.
Qed.

Lemma keeps_resp_json resp : keeps p (resp_json resp).
Proof. apply keeps_silent. intros w. unfold resp_json. by destruct (body resp). Qed.

Lemma keeps_apply_token_response e j : keeps p (apply_token_response e j).
Proof.
  intros w.
  destruct (apply_token_response e j w) as [[[]|x] w'] eqn:H; simpl.
  - apply apply_token_response_inv in H as (d & n & -> & Hwf & ->).
    unfold applied, count_events. simpl. rewrite p_saved; [done|].
    pose proof (applied_access_token e d n w) as Ha.
    unfold applied in Ha. simpl in Ha. rewrite Ha. eauto.
  - revert H. unfold apply_token_response, mbind, M_bind, lift, py_get, py_get_default,
      raise, config_set, now_ts, save_config.
    destruct j as [|b|z|s|l|d]; simpl; try (by intros [= <- <-]).
    destruct (truthy (dict_get_default "access_token" JNull d)); simpl;
      [|by intros [= <- <-]].
    destruct (truthy (dict_get_default "refresh_token" JNull d)); simpl;
      destruct (py_int _); simpl; intros [= <- <-]; done.
Qed.

Lemma keeps_post_for_token e data : keeps p (post_for_token e data).
Proof.
  apply keeps_bind; [apply keeps_post|]. intros resp.
  destruct (status_code resp =? 200); [apply keeps_resp_json|by apply keeps_silent].
Qed.

Lemma keeps_code_flow e cid cs : keeps p (ensure_token_code_flow e cid cs).
Proof.
  unfold ensure_token_code_flow.
  apply keeps_bind; [by apply keeps_silent|]. intros code.
  apply keeps_bind; [by apply keeps_silent|]. intros ver.
  destruct (truthy code && truthy ver); [|by apply keeps_silent].
  apply keeps_bind; [apply keeps_post_for_token|]. intros j.
  destruct (truthy j); [apply keeps_apply_token_response|by apply keeps_silent].
Qed.

Lemma keeps_token_is_valid e : keeps p (token_is_valid e).
Proof.
  apply keeps_silent. intros w. rewrite token_is_valid_eq.
  destruct (truthy _); [|done]. by destruct (py_int _).
Qed.

Lemma keeps_ensure_token e : keeps p (ensure_token e).
Proof.
  unfold ensure_token.
  apply keeps_bind; [by apply keeps_silent|]. intros _.
  apply keeps_bind; [apply keeps_token_is_valid|]. intros valid.
  destruct valid; [by apply keeps_silent|].
  apply keeps_bind; [by apply keeps_silent|]. intros cid.
  apply keeps_bind; [by apply keeps_silent|]. intros cs.
  destruct (negb (truthy cid) || negb (truthy cs)); [by apply keeps_silent|].
  apply keeps_bind; [by apply keeps_silent|]. intros rt.
  destruct (truthy rt); [|apply keeps_code_flow].
  apply keeps_bind; [apply keeps_post_for_token|]. intros j.
  destruct (truthy j); [apply keeps_apply_token_response|apply keeps_code_flow].
Qed.

(** What follows the two requests in one turn of the loop. *)
Lemma keeps_page_tail (resp : response) (token : json) (items : list json) :
  keeps p (if negb (status_code resp =? 200)
           then raise (RuntimeError (fetch_failed_msg resp))
           else
             data ← resp_json resp;
             page_items ← lift (py_get_default "data" (JArr []) data);
             items ← lift (py_extend items page_items);
             paging ← lift (py_get_default "paging" (JObj []) data);
             next_url ← lift (py_get "next" paging);
             pure (next_url, token, items)).
Proof.
  destruct (negb _); [by apply keeps_silent|].
  apply keeps_bind; [apply keeps_resp_json|]. intros data.
  repeat (apply keeps_bind; [by apply keeps_silent|]; intros ?).
  by apply keeps_silent.
Qed.
End Counting.

Lemma is_discard_post u d : is_discard (Sent (Post u d)) = false.
Proof. reflexivity. Qed.

Lemma is_discard_saved c : is_Some (c !! "access_token") → is_discard (Saved c) = false.
Proof.
  intros [tok Htok]. simpl. apply bool_decide_eq_false. by rewrite Htok.
Qed.

Lemma is_get_to_post url u d : is_get_to url (Sent (Post u d)) = false.
Proof. reflexivity. Qed.

Lemma is_get_to_saved url c : is_Some (c !! "access_token") → is_get_to url (Saved c) = false.
Proof. reflexivity. Qed.

Lemma ensure_token_recoveries e w :
  recoveries (log (ensure_token e w).2) = recoveries (log w).
Proof. apply (keeps_ensure_token is_discard is_discard_post is_discard_saved). Qed.

Lemma ensure_token_gets_to url e w :
  gets_to url (log (ensure_token e w).2) = gets_to url (log w).
Proof.
  apply (keeps_ensure_token (is_get_to url) (is_get_to_post url) (is_get_to_saved url)).
Qed.

Lemma recoveries_discarded w : recoveries (log (discarded w)) = S (recoveries (log w)).
Proof.
  unfold recoveries, count_events, discarded. simpl.
  rewrite bool_decide_eq_true_2 by apply lookup_delete_eq. reflexivity.
Qed.

Lemma refresh_and_retry_eq e url w :
  refresh_and_retry e url w =
  (ensure_token e;;
   token ← config_get "access_token";
   resp ← http_get e url (Some token) [];
   pure (resp, token)) (discarded w).
Proof. reflexivity. Qed.

(** *** Counting per turn *)

Section AtMost.
Variable p : event → bool.

Lemma adds_at_most_keeps {A} (m : M A) : keeps p m → adds_at_most p 0 m.
Proof. intros H w. rewrite H. lia. Qed.

Lemma adds_at_most_bind {A B} k1 k2 (m : M A) (f : A → M B) :
  adds_at_most p k1 m → (∀ a, adds_at_most p k2 (f a)) →
  adds_at_most p (k1 + k2) (m ≫= f).
Proof.
  intros Hm Hf w. specialize (Hm w). unfold mbind, M_bind.
  destruct (m w) as [[a|x] w1]; simpl in *; [|lia].
  specialize (Hf a w1). lia.
Qed.

Lemma adds_at_most_weaken {A} k k' (m : M A) :
  (k ≤ k')%nat → adds_at_most p k m → adds_at_most p k' m.
Proof. intros Hk Hm w. specialize (Hm w). lia. Qed.

Lemma adds_at_most_http_get e url auth params :
  adds_at_most p 1 (http_get e url auth params).
Proof.
  intros w. unfold http_get, send, raise.
  destruct url as [|b|z|u|l|d]; simpl; try lia.
  destruct (server e _); simpl; unfold count_events; simpl;
    destruct (p _); simpl; lia.
Qed.

Lemma adds_at_most_save_config : adds_at_most p 1 save_config.
Proof.
  intros w. unfold save_config, count_events. simpl.
  destruct (p _); simpl; lia.
Qed.
End AtMost.

Lemma keeps_is_discard_http_get e url auth params :
  keeps is_discard (http_get e url auth params).
Proof.
  intros w. unfold http_get, send, raise.
  destruct url as [|b|z|u|l|d]; simpl; try done.
  by destruct (server e _).
Qed.

Lemma keeps_is_get_to_save_config url : keeps (is_get_to url) save_config.
Proof. intros w. reflexivity. Qed.

(** The rest of the recovery once the token was dropped and saved. *)
Lemma keeps_is_discard_reacquire e url
    (tail : response * json → M (json * json * list json)) :
  (∀ rt, keeps is_discard (tail rt)) →
  keeps is_discard
    ((ensure_token e;;
      token ← config_get "access_token";
      resp ← http_get e url (Some token) [];
      pure (resp, token)) ≫= tail).
Proof.
  intros Htail.
  apply keeps_bind; [|exact Htail].
  apply keeps_bind; [apply (keeps_ensure_token _ is_discard_post is_discard_saved)|].
  intros _. apply keeps_bind; [by apply keeps_silent|]. intros token.
  apply keeps_bind; [apply keeps_is_discard_http_get|]. intros resp.
  by apply keeps_silent.
Qed.

(** One turn starts the recovery exactly when the first answer is a
    401, and then once. *)
Lemma animelist_page_recoveries e u token params items w :
  recoveries (log (animelist_page e (JStr u) token params items w).2) =
  (recoveries (log w) +
   match server e (requests_of (Sent (Get u (Some token) params) :: log w)) with
   | Some resp => if (status_code resp =? 401)%Z then 1 else 0
   | None => 0
   end)%nat.
Proof.
  unfold animelist_page, http_get.
  unfold mbind at 1, M_bind at 1. unfold send.
  destruct (server e _) as [resp|]; simpl; [|unfold recoveries, count_events; simpl; lia].
  set (w1 := mkWorld _ _ _ _).
  set (tail := λ rt : response * json,
         if negb (status_code rt.1 =? 200)
         then raise (RuntimeError (fetch_failed_msg rt.1))
         else
           data ← resp_json rt.1;
           page_items ← lift (py_get_default "data" (JArr []) data);
           items0 ← lift (py_extend items page_items);
           paging ← lift (py_get_default "paging" (JObj []) data);
           next_url ← lift (py_get "next" paging);
           pure (next_url, rt.2, items0)).
  assert (∀ rt, keeps is_discard (tail rt)) as Htail.
  { intros rt. apply (keeps_page_tail is_discard). }
  destruct (status_code resp =? 401).
  - change (recoveries (log (((ensure_token e;;
              token ← config_get "access_token";
              resp ← http_get e (JStr u) (Some token) [];
              pure (resp, token)) ≫= tail) (discarded w1)).2)
            = (recoveries (log w) + 1)%nat).
    unfold recoveries.
    rewrite (keeps_is_discard_reacquire e (JStr u) tail Htail (discarded w1)).
    fold (recoveries (log (discarded w1))). rewrite recoveries_discarded.
    subst w1. unfold recoveries, count_events. simpl. lia.
  - change (recoveries (log ((pure (resp, token) ≫= tail) w1).2)
            = (recoveries (log w) + 0)%nat).
    unfold recoveries.
    rewrite (keeps_bind is_discard (pure (resp, token)) tail); [|by apply keeps_silent|exact Htail].
    subst w1. unfold count_events. simpl. lia.
Qed.

Lemma animelist_page_recoveries_le e url token params items w :
  (recoveries (log (animelist_page e url token params items w).2)
   ≤ recoveries (log w) + 1)%nat.
Proof.
  destruct url as [|b|z|u|l|d]; try (simpl; lia).
  rewrite animelist_page_recoveries.
  destruct (server e _) as [resp|]; [destruct (status_code resp =? 401)|]; lia.
Qed.

(** One turn sends at most two requests to the page's URL. *)
Lemma animelist_page_gets_le e url u token params items w :
  (gets_to u (log (animelist_page e url token params items w).2)
   ≤ gets_to u (log w) + 2)%nat.
Proof.
  revert w. change (adds_at_most (is_get_to u) 2 (animelist_page e url token params items)).
  unfold animelist_page.
  apply (adds_at_most_bind _ 1 1); [apply adds_at_most_http_get|]. intros resp.
  apply (adds_at_most_bind _ 1 0).
  - destruct (status_code resp =? 401);
      [|apply (adds_at_most_weaken _ 0); [lia|by apply adds_at_most_keeps, keeps_silent]].
    unfold refresh_and_retry.
    apply (adds_at_most_bind _ 0 1); [by apply adds_at_most_keeps, keeps_silent|].
    intros _.
    apply (adds_at_most_bind _ 0 1);
      [apply adds_at_most_keeps, keeps_is_get_to_save_config|]. intros _.
    apply (adds_at_most_bind _ 0 1).
    { apply adds_at_most_keeps.
      apply (keeps_ensure_token _ (is_get_to_post u) (is_get_to_saved u)). }
    intros _.
    apply (adds_at_most_bind _ 0 1); [by apply adds_at_most_keeps, keeps_silent|].
    intros tok.
    apply (adds_at_most_bind _ 1 0); [apply adds_at_most_http_get|]. intros resp'.
    by apply adds_at_most_keeps, keeps_silent.
  - intros rt. apply adds_at_most_keeps. apply (keeps_page_tail (is_get_to u)).
Qed.

Lemma fetch_turns_le_fuel e fuel url token params items w :
  (fetch_turns e fuel url token params items w ≤ fuel)%nat.
Proof.
  revert url token params items w.
  induction fuel as [|fuel IH]; intros url token params items w; simpl.
  - destruct (negb (truthy url)); lia.
  - destruct (negb (truthy url)); [lia|].
    destruct (animelist_page e url token params items w) as [[[[next tok] its]|x] w1]; [|lia].
    specialize (IH next tok [] its w1). lia.
Qed.

Lemma fetch_loop_recoveries e fuel url token params items w :
  (recoveries (log (fetch_loop e fuel url token params items w).2)
   ≤ recoveries (log w) + fetch_turns e fuel url token params items w)%nat.
Proof.
  revert url token params items w.
  induction fuel as [|fuel IH]; intros url token params items w; simpl.
  - destruct (negb (truthy url)); simpl; lia.
  - destruct (negb (truthy url)); [simpl; lia|].
    pose proof (animelist_page_recoveries_le e url token params items w) as Hpage.
    unfold mbind, M_bind.
    destruct (animelist_page e url token params items w) as [[[[next tok] its]|x] w1];
      simpl in *; [|lia].
    specialize (IH next tok [] its w1). lia.
Qed.

(** C3 as the claim words it, at most one recovery per call, fails:
    when the first answer for page one and the first answer for page
    two are both 401, one call runs the recovery twice and returns.
    The second page is at the absolute URL the first page gives in
    [paging.next]. *)
Lemma fetch_all_animelist_recovers_on_each_page :
  let c : gmap string json :=
    list_to_map [("client_id", JStr "id"); ("client_secret", JStr "sec");
                 ("refresh_token", JStr "r0"); ("access_token", JStr "old");
                 ("expires_at", JInt 99999)] in
  let next_page :=
    "https://api.myanimelist.net/v2/users/bob/animelist?offset=2&status=watching&limit=2" in
  let token_answer :=
    mkResponse 200 "" (Some (JObj [("access_token", JStr "tok"); ("expires_in", JInt 3600)])) in
  let page1 :=
    mkResponse 200 "" (Some (JObj [("data", JArr [JInt 1; JInt 2]);
                                    ("paging", JObj [("next", JStr next_page)])])) in
  let page2 :=
    mkResponse 200 "" (Some (JObj [("data", JArr [JInt 3]); ("paging", JObj [])])) in
  let e := mkEnv (λ l, match l with
                       | Post _ _ :: _ => Some token_answer
                       | Get u _ _ :: Post _ _ :: _ =>
                           Some (if String.eqb u next_page then page2 else page1)
                       | Get _ _ _ :: _ => Some (mkResponse 401 "denied" None)
                       | [] => None
                       end) (λ _, 1000) in
  let run := fetch_all_animelist e 2 "bob" "watching" (mkWorld ∅ (Some c) [] 0) in
  run.1 = Ok (Some [JInt 1; JInt 2; JInt 3])
  ∧ recoveries (log run.2) = 2%nat
  ∧ omap (λ r, match r with Get u _ _ => Some u | Post _ _ => None end)
      (requests_of (log run.2))
    = [next_page; next_page;
       "https://api.myanimelist.net/v2/users/bob/animelist";
       "https://api.myanimelist.net/v2/users/bob/animelist"].
Proof.
  intros c next_page token_answer page1 page2 e run. repeat split; reflexivity.
Qed.

(** C3, amended.  The recovery runs at most once in each turn of the
    loop, that is once per page asked for, so a call performs at most
    as many recoveries as it asks for pages. *)
Theorem recovery_once_per_page (e : env) (fuel : nat) (username status : string)
    (w : world) :
  (∀ url token params items w0,
     recoveries (log (animelist_page e url token params items w0).2)
     ≤ recoveries (log w0) + 1)%nat
  ∧ (recoveries (log (fetch_all_animelist e fuel username status w).2)
     ≤ recoveries (log w) + pages_requested e fuel username status w)%nat
  ∧ (pages_requested e fuel username status w ≤ fuel)%nat.
Proof.
  split; [apply animelist_page_recoveries_le|]. split.
  - unfold fetch_all_animelist, pages_requested, mbind, M_bind.
    pose proof (ensure_token_recoveries e w) as Hens.
    destruct (ensure_token e w) as [[[]|x] w1]; simpl in *; [|lia].
    unfold config_get, config_get_default. rewrite <- Hens.
    apply fetch_loop_recoveries.
  - unfold pages_requested.
    destruct (ensure_token e w) as [[[]|x] w1]; [|lia].
    apply fetch_turns_le_fuel.
Qed.

(** C4.  When the first answer for a page is a 401, that turn of the
    loop drops the token once and sends at most one more request for
    the page; if the new token is obtained and the second answer is
    not a 200 either (a second 401 included), the whole fetch raises
    the error that carries that status and body, whatever [fuel] is
    left. *)
Theorem second_failure_fails_fetch (e : env) (fuel : nat) (u : string) (token : json)
    (params : list (string * json)) (items : list json) (w : world) (r1 : response) :
  u ≠ "" →
  server e (requests_of (Sent (Get u (Some token) params) :: log w)) = Some r1 →
  status_code r1 = 401 →
  (recoveries (log (animelist_page e (JStr u) token params items w).2)
   = S (recoveries (log w))
   ∧ gets_to u (log (animelist_page e (JStr u) token params items w).2)
     ≤ gets_to u (log w) + 2)%nat
  ∧ ∀ w2 r2,
      ensure_token e (discarded (sent (Get u (Some token) params) w)) = (Ok (), w2) →
      let retry := Get u (Some (default JNull (config w2 !! "access_token"))) [] in
      server e (requests_of (Sent retry :: log w2)) = Some r2 →
      status_code r2 ≠ 200 →
      fetch_loop e (S fuel) (JStr u) token params items w
      = (Raise (RuntimeError (fetch_failed_msg r2)), sent retry w2)
      ∧ recoveries (log (sent retry w2)) = S (recoveries (log w))
      ∧ gets_to u (log (sent retry w2)) = S (S (gets_to u (log w))).
Proof.
  intros Hu Hs1 Hst1. split.
  - split; [|apply animelist_page_gets_le].
    rewrite animelist_page_recoveries, Hs1, Hst1. simpl. lia.
  - intros w2 r2 Hens retry Hs2 Hst2.
    assert (animelist_page e (JStr u) token params items w
            = (Raise (RuntimeError (fetch_failed_msg r2)), sent retry w2)) as Hpage.
    { unfold animelist_page, http_get. unfold mbind at 1, M_bind at 1.
      unfold send. cbv beta zeta. rewrite Hs1, Hst1.
      change (401 =? 401) with true. cbv iota.
      unfold mbind at 1, M_bind at 1. rewrite refresh_and_retry_eq.
      unfold mbind at 1, M_bind at 1. unfold mbind at 1, M_bind at 1.
      fold (sent (Get u (Some token) params) w). rewrite Hens.
      unfold mbind at 1, M_bind at 1. unfold config_get, config_get_default.
      cbv beta iota. unfold mbind at 1, M_bind at 1. unfold http_get, send.
      cbv beta zeta. fold retry. rewrite Hs2. unfold pure. cbv beta iota.
      cbn [fst]. apply Z.eqb_neq in Hst2. rewrite Hst2. reflexivity. }
    split.
    + simpl. apply String.eqb_neq in Hu. rewrite Hu. simpl.
      unfold mbind, M_bind. rewrite Hpage. reflexivity.
    + pose proof (ensure_token_recoveries e (discarded (sent (Get u (Some token) params) w)))
        as Hrec.
      pose proof (ensure_token_gets_to u e (discarded (sent (Get u (Some token) params) w)))
        as Hget.
      rewrite Hens in Hrec, Hget. simpl in Hrec, Hget.
      unfold recoveries, gets_to, count_events in *. simpl in *.
      rewrite String.eqb_refl in *. simpl in *.
      rewrite bool_decide_eq_true_2 in Hrec by apply lookup_delete_eq.
      simpl in Hrec. lia.
Qed.

Lemma second_failure_fails_fetch_witness :
  let c : gmap string json :=
    list_to_map [("client_id", JStr "id"); ("client_secret", JStr "sec");
                 ("refresh_token", JStr "r0"); ("access_token", JStr "old");
                 ("expires_at", JInt 99999)] in
  let token_answer :=
    mkResponse 200 "" (Some (JObj [("access_token", JStr "tok"); ("expires_in", JInt 3600)])) in
  let denied := mkResponse 401 "denied" None in
  let e := mkEnv (λ l, match l with
                       | Post _ _ :: _ => Some token_answer
                       | Get _ _ _ :: _ => Some denied
                       | [] => None
                       end) (λ _, 1000) in
  let w := mkWorld c (Some c) [] 1 in
  fetch_loop e 1 (JStr "page") (JStr "old") [] [] w
  = (Raise (RuntimeError "Failed to fetch animelist: 401 denied"),
     (fetch_loop e 1 (JStr "page") (JStr "old") [] [] w).2).
Proof.
  intros c token_answer denied e w.
  destruct (second_failure_fails_fetch e 0 "page" (JStr "old") [] [] w denied)
    as [_ Hfail].
  - discriminate.
  - reflexivity.
  - reflexivity.
  - destruct (Hfail (ensure_token e (discarded (sent (Get "page" (Some (JStr "old")) []) w))).2
                denied) as [Hrun _].
    + reflexivity.
    + reflexivity.
    + simpl. lia.
    + rewrite Hrun. reflexivity.
Defined.

(** * Further properties *)

(** ** Token manager: which path is taken *)

Lemma token_is_valid_frame e w r w1 :
  token_is_valid e w = (r, w1) →
  config w1 = config w ∧ disk w1 = disk w ∧ log w1 = log w.
Proof.
  rewrite token_is_valid_eq.
  destruct (truthy _); [destruct (py_int _)|]; intros [= <- <-]; done.
Qed.

Lemma ensure_token_eq e w :
  ensure_token e w =
  match token_is_valid e (loaded w) with
  | (Ok true, w1) => (Ok (), w1)
  | (Ok false, w1) => ensure_token_slow e w1
  | (Raise x, w1) => (Raise x, w1)
  end.
Proof.
  unfold ensure_token. unfold mbind at 1, M_bind at 1. unfold load_config.
  fold (loaded w). unfold mbind at 1, M_bind at 1.
  destruct (token_is_valid e (loaded w)) as [[[]|x] w1]; reflexivity.
Qed.

Lemma post_for_token_eq e data w :
  post_for_token e data w =
  let w' := sent (Post MAL_TOKEN_URL data) w in
  match server e (requests_of (log w')) with
  | None => (Raise RequestException, w')
  | Some resp =>
      if status_code resp =? 200 then
        match body resp with
        | Some j => (Ok j, w')
        | None => (Raise JSONDecodeError, w')
        end
      else (Ok JNull, w')
  end.
Proof.
  unfold post_for_token, mbind, M_bind, send, sent, resp_json, pure, raise. simpl.
  destruct (server e _) as [resp|]; [|done].
  destruct (status_code resp =? 200); [|done]. by destruct (body resp).
Qed.

Lemma ensure_token_code_flow_eq e cid cs w :
  ensure_token_code_flow e cid cs w =
  let code := default JNull (config w !! "authorization_code") in
  let ver := default JNull (config w !! "code_verifier") in
  if truthy code && truthy ver then
    match post_for_token e [("grant_type", JStr "authorization_code"); ("code", code);
                            ("code_verifier", ver); ("client_id", cid);
                            ("client_secret", cs)] w with
    | (Ok j, w2) =>
        if truthy j then apply_token_response e j w2
        else (Raise (RuntimeError no_token_msg), w2)
    | (Raise x, w2) => (Raise x, w2)
    end
  else (Raise (RuntimeError no_token_msg), w).
Proof.
  unfold ensure_token_code_flow, mbind, M_bind, config_get, config_get_default. simpl.
  destruct (truthy _ && truthy _); [|done].
  change (request_token_with_code e ?a ?b ?c ?d) with
    (post_for_token e [("grant_type", JStr "authorization_code"); ("code", a);
                       ("code_verifier", b); ("client_id", c); ("client_secret", d)]).
  destruct (post_for_token e _ w) as [[j|x] w2]; [|done].
  by destruct (truthy j).
Qed.

Lemma ensure_token_slow_eq e w :
  ensure_token_slow e w =
  let cid := default JNull (config w !! "client_id") in
  let cs := default JNull (config w !! "client_secret") in
  let rt := default JNull (config w !! "refresh_token") in
  if negb (truthy cid) || negb (truthy cs)
  then (Raise (RuntimeError no_client_msg), w)
  else if truthy rt then
    match post_for_token e (refresh_form (config w)) w with
    | (Ok j, w2) =>
        if truthy j then apply_token_response e j w2
        else ensure_token_code_flow e cid cs w2
    | (Raise x, w2) => (Raise x, w2)
    end
  else ensure_token_code_flow e cid cs w.
Proof.
  unfold ensure_token_slow, mbind, M_bind, config_get, config_get_default. simpl.
  destruct (negb _ || negb _); [done|].
  destruct (truthy (default JNull (config w !! "refresh_token"))); [|done].
  change (request_token_with_refresh e ?a ?b ?c) with
    (post_for_token e [("grant_type", JStr "refresh_token"); ("client_id", b);
                       ("client_secret", c); ("refresh_token", a)]).
  unfold refresh_form.
  destruct (post_for_token e _ w) as [[j|x] w2]; [|done].
  by destruct (truthy j).
Qed.

(** X1.  With no valid stored token and [client_id] or [client_secret]
    missing or empty, [ensure_token] raises the configuration error
    without sending anything and without writing the file. *)
Theorem ensure_token_needs_client_identity (e : env) (w w1 : world) :
  token_is_valid e (loaded w) = (Ok false, w1) →
  truthy (default JNull (default ∅ (disk w) !! "client_id")) = false
  ∨ truthy (default JNull (default ∅ (disk w) !! "client_secret")) = false →
  ensure_token e w = (Raise (RuntimeError no_client_msg), w1)
  ∧ log w1 = log w ∧ disk w1 = disk w.
Proof.
  intros Hv Hmiss. destruct (token_is_valid_frame _ _ _ _ Hv) as (Hc & Hd & Hl).
  simpl in Hc, Hd, Hl. rewrite ensure_token_eq, Hv, ensure_token_slow_eq. simpl.
  rewrite Hc. split; [|done].
  destruct Hmiss as [-> | ->]; simpl; [done|]. by rewrite orb_true_r.
Qed.

Lemma ensure_token_needs_client_identity_witness :
  let c : gmap string json :=
    list_to_map [("client_id", JStr "id"); ("client_secret", JStr "");
                 ("refresh_token", JStr "r0")] in
  let e := mkEnv (λ _, None) (λ _, 1000) in
  ensure_token e (mkWorld ∅ (Some c) [] 0)
  = (Raise (RuntimeError no_client_msg), mkWorld c (Some c) [] 0).
Proof.
  intros c e.
  apply (ensure_token_needs_client_identity e (mkWorld ∅ (Some c) [] 0)
           (mkWorld c (Some c) [] 0)).
  - reflexivity.
  - right. reflexivity.
Defined.

(** X2.  With no valid stored token, the client identity present and
    neither a refresh token nor the pair of authorization code and
    verifier, [ensure_token] raises the "could not obtain" error
    without sending anything. *)
Theorem ensure_token_no_credential_path (e : env) (w w1 : world) :
  let c := default ∅ (disk w) in
  token_is_valid e (loaded w) = (Ok false, w1) →
  truthy (default JNull (c !! "client_id")) = true →
  truthy (default JNull (c !! "client_secret")) = true →
  truthy (default JNull (c !! "refresh_token")) = false →
  truthy (default JNull (c !! "authorization_code")) = false
  ∨ truthy (default JNull (c !! "code_verifier")) = false →
  ensure_token e w = (Raise (RuntimeError no_token_msg), w1)
  ∧ log w1 = log w ∧ disk w1 = disk w.
Proof.
  intros c Hv Hid Hsec Hrt Hcode.
  destruct (token_is_valid_frame _ _ _ _ Hv) as (Hc & Hd & Hl).
  simpl in Hc, Hd, Hl. fold c in Hc.
  rewrite ensure_token_eq, Hv, ensure_token_slow_eq. simpl.
  rewrite Hc, Hid, Hsec, Hrt. simpl. rewrite ensure_token_code_flow_eq. simpl.
  rewrite Hc. split; [|done].
  destruct Hcode as [-> | ->]; simpl; [done|]. by rewrite andb_false_r.
Qed.

Lemma ensure_token_no_credential_path_witness :
  let c : gmap string json :=
    list_to_map [("client_id", JStr "id"); ("client_secret", JStr "sec");
                 ("authorization_code", JStr "code")] in
  let e := mkEnv (λ _, None) (λ _, 1000) in
  ensure_token e (mkWorld ∅ (Some c) [] 0)
  = (Raise (RuntimeError no_token_msg), mkWorld c (Some c) [] 0).
Proof.
  intros c e.
  apply (ensure_token_no_credential_path e (mkWorld ∅ (Some c) [] 0)
           (mkWorld c (Some c) [] 0)); try reflexivity.
  right. reflexivity.
Defined.

(** ** Token manager: what it sends and writes *)

Lemma apply_token_response_cases e j w :
  (∃ d n, j = JObj d ∧ well_formed_token_response d n
          ∧ apply_token_response e j w = (Ok (), applied e d n w))
  ∨ (∃ x w', apply_token_response e j w = (Raise x, w')
             ∧ disk w' = disk w ∧ log w' = log w).
Proof.
  destruct (apply_token_response e j w) as [[[]|x] w'] eqn:H.
  - left. apply apply_token_response_inv in H as (d & n & -> & Hwf & ->). eauto.
  - right. exists x, w'. split; [done|]. revert H.
    unfold apply_token_response, mbind, M_bind, lift, py_get, py_get_default,
      raise, config_set, now_ts, save_config.
    destruct j as [|b|z|s|l|d]; simpl; try (by intros [= <- <-]).
    destruct (truthy (dict_get_default "access_token" JNull d)); simpl;
      [|by intros [= <- <-]].
    destruct (truthy (dict_get_default "refresh_token" JNull d)); simpl;
      destruct (py_int _); simpl; intros [= <- <-]; done.
Qed.

Section Emits.
Variable P : event → Prop.
Hypothesis P_post : ∀ d, P (Sent (Post MAL_TOKEN_URL d)).
Hypothesis P_saved : ∀ c, is_Some (c !! "access_token") → P (Saved c).

Lemma emits_bind {A B} (m : M A) (f : A → M B) :
  emits P m → (∀ a, emits P (f a)) → emits P (m ≫= f).
Proof.
  intros Hm Hf w. destruct (Hm w) as (new1 & Hl1 & HP1). unfold mbind, M_bind.
  destruct (m w) as [[a|x] w1]; simpl in *; [|eauto].
  destruct (Hf a w1) as (new2 & Hl2 & HP2).
  exists (new2 ++ new1)%list. rewrite Hl2, Hl1, app_assoc. split; [done|].
  by apply Forall_app.
Qed.

Lemma emits_silent {A} (m : M A) : (∀ w, log (m w).2 = log w) → emits P m.
Proof. intros H w. exists []. by rewrite H. Qed.

Lemma emits_post_for_token e data : emits P (post_for_token e data).
Proof.
  intros w. destruct (post_for_token e data w) as [r w'] eqn:H.
  apply post_for_token_inv in H as [-> _]. simpl.
  exists [Sent (Post MAL_TOKEN_URL data)]. split; [done|]. repeat constructor. apply P_post.
Qed.

Lemma emits_apply_token_response e j : emits P (apply_token_response e j).
Proof.
  intros w. destruct (apply_token_response_cases e j w)
    as [(d & n & -> & Hwf & ->)|(x & w' & -> & _ & Hl)]; simpl.
  - eexists [_]. split; [reflexivity|]. repeat constructor. apply P_saved.
    pose proof (applied_access_token e d n w) as Ha.
    unfold applied in Ha. simpl in Ha. rewrite Ha. eauto.
  - exists []. by rewrite Hl.
Qed.

Lemma emits_code_flow e cid cs : emits P (ensure_token_code_flow e cid cs).
Proof.
  unfold ensure_token_code_flow.
  apply emits_bind; [by apply emits_silent|]. intros code.
  apply emits_bind; [by apply emits_silent|]. intros ver.
  destruct (truthy code && truthy ver); [|by apply emits_silent].
  apply emits_bind; [apply emits_post_for_token|]. intros j.
  destruct (truthy j); [apply emits_apply_token_response|by apply emits_silent].
Qed.

Lemma emits_ensure_token e : emits P (ensure_token e).
Proof.
  unfold ensure_token.
  apply emits_bind; [by apply emits_silent|]. intros _.
  apply emits_bind.
  { apply emits_silent. intros w. rewrite token_is_valid_eq.
    destruct (truthy _); [|done]. by destruct (py_int _). }
  intros valid. destruct valid; [by apply emits_silent|].
  apply emits_bind; [by apply emits_silent|]. intros cid.
  apply emits_bind; [by apply emits_silent|]. intros cs.
  destruct (negb (truthy cid) || negb (truthy cs)); [by apply emits_silent|].
  apply emits_bind; [by apply emits_silent|]. intros rt.
  destruct (truthy rt); [|apply emits_code_flow].
  apply emits_bind; [apply emits_post_for_token|]. intros j.
  destruct (truthy j); [apply emits_apply_token_response|apply emits_code_flow].
Qed.
End Emits.

Lemma adds_at_most_send p e r : adds_at_most p 1 (send e r).
Proof.
  intros w. unfold send. destruct (server e _); simpl; unfold count_events; simpl;
    destruct (p _); simpl; lia.
Qed.

Lemma adds_at_most_post_for_token p e data : adds_at_most p 1 (post_for_token e data).
Proof.
  apply (adds_at_most_bind _ 1 0); [apply adds_at_most_send|]. intros resp.
  apply adds_at_most_keeps.
  destruct (status_code resp =? 200); [apply keeps_resp_json|by apply keeps_silent].
Qed.

Lemma is_request_saved c : is_Some (c !! "access_token") → is_request (Saved c) = false.
Proof. reflexivity. Qed.

Lemma adds_at_most_requests_code_flow e cid cs :
  adds_at_most is_request 1 (ensure_token_code_flow e cid cs).
Proof.
  unfold ensure_token_code_flow.
  apply (adds_at_most_bind _ 0 1); [by apply adds_at_most_keeps, keeps_silent|].
  intros code.
  apply (adds_at_most_bind _ 0 1); [by apply adds_at_most_keeps, keeps_silent|].
  intros ver.
  destruct (truthy code && truthy ver);
    [|apply (adds_at_most_weaken _ 0); [lia|by apply adds_at_most_keeps, keeps_silent]].
  apply (adds_at_most_bind _ 1 0); [apply adds_at_most_post_for_token|]. intros j.
  apply adds_at_most_keeps.
  destruct (truthy j);
    [apply (keeps_apply_token_response _ is_request_saved)|by apply keeps_silent].
Qed.

Lemma adds_at_most_requests_ensure_token e :
  adds_at_most is_request 2 (ensure_token e).
Proof.
  unfold ensure_token.
  apply (adds_at_most_bind _ 0 2); [by apply adds_at_most_keeps, keeps_silent|].
  intros _.
  apply (adds_at_most_bind _ 0 2); [apply adds_at_most_keeps, keeps_token_is_valid|].
  intros valid.
  destruct valid;
    [apply (adds_at_most_weaken _ 0); [lia|by apply adds_at_most_keeps, keeps_silent]|].
  apply (adds_at_most_bind _ 0 2); [by apply adds_at_most_keeps, keeps_silent|].
  intros cid.
  apply (adds_at_most_bind _ 0 2); [by apply adds_at_most_keeps, keeps_silent|].
  intros cs.
  destruct (negb (truthy cid) || negb (truthy cs));
    [apply (adds_at_most_weaken _ 0); [lia|by apply adds_at_most_keeps, keeps_silent]|].
  apply (adds_at_most_bind _ 0 2); [by apply adds_at_most_keeps, keeps_silent|].
  intros rt.
  destruct (truthy rt);
    [|apply (adds_at_most_weaken _ 1); [lia|apply adds_at_most_requests_code_flow]].
  apply (adds_at_most_bind _ 1 1); [apply adds_at_most_post_for_token|]. intros j.
  destruct (truthy j); [|apply adds_at_most_requests_code_flow].
  apply (adds_at_most_weaken _ 0); [lia|].
  apply adds_at_most_keeps, (keeps_apply_token_response _ is_request_saved).
Qed.

(** X3.  Whatever its outcome, [ensure_token] only appends to the log
    forms posted to the token endpoint and saves of a record that
    holds an access token; it sends at most two requests. *)
Theorem ensure_token_traffic (e : env) (w : world) :
  (∃ new, log (ensure_token e w).2 = (new ++ log w)%list
          ∧ Forall token_traffic new)
  ∧ (count_events is_request (log (ensure_token e w).2)
     ≤ count_events is_request (log w) + 2)%nat.
Proof.
  split.
  - apply (emits_ensure_token token_traffic); simpl; auto.
  - apply adds_at_most_requests_ensure_token.
Qed.

(** X4.  With no valid stored token, the client identity and a
    refresh token, the first thing [ensure_token] sends is the refresh
    form, carrying the stored refresh token, before any
    authorization-code form. *)
Theorem ensure_token_refresh_first (e : env) (w w1 : world) :
  let c := default ∅ (disk w) in
  token_is_valid e (loaded w) = (Ok false, w1) →
  truthy (default JNull (c !! "client_id")) = true →
  truthy (default JNull (c !! "client_secret")) = true →
  truthy (default JNull (c !! "refresh_token")) = true →
  ∃ later, log (ensure_token e w).2
           = (later ++ Sent (Post MAL_TOKEN_URL (refresh_form c)) :: log w)%list
           ∧ Forall token_traffic later.
Proof.
  intros c Hv Hid Hsec Hrt.
  destruct (token_is_valid_frame _ _ _ _ Hv) as (Hc & Hd & Hl).
  simpl in Hc, Hd, Hl. fold c in Hc.
  rewrite ensure_token_eq, Hv, ensure_token_slow_eq. simpl.
  rewrite Hc, Hid, Hsec, Hrt. simpl.
  destruct (post_for_token e (refresh_form c) w1) as [[j|x] w2] eqn:Hpost;
    apply post_for_token_inv in Hpost as [-> _].
  - assert (emits token_traffic
              (if truthy j then apply_token_response e j
               else ensure_token_code_flow e (default JNull (c !! "client_id"))
                      (default JNull (c !! "client_secret")))) as Hrest.
    { destruct (truthy j);
        [apply emits_apply_token_response|apply emits_code_flow]; simpl; auto. }
    destruct (Hrest (sent (Post MAL_TOKEN_URL (refresh_form c)) w1)) as (later & Hlog & Hlater).
    exists later. split; [|done].
    destruct (truthy j); rewrite Hlog; simpl; by rewrite Hl.
  - exists []. simpl. by rewrite Hl.
Qed.

Lemma ensure_token_refresh_first_witness :
  let c : gmap string json :=
    list_to_map [("client_id", JStr "id"); ("client_secret", JStr "sec");
                 ("refresh_token", JStr "r0"); ("authorization_code", JStr "code");
                 ("code_verifier", JStr "ver")] in
  let e := mkEnv (λ _, Some (mkResponse 500 "down" None)) (λ _, 1000) in
  ∃ later, log (ensure_token e (mkWorld ∅ (Some c) [] 0)).2
           = (later ++ [Sent (Post MAL_TOKEN_URL (refresh_form c))])%list.
Proof.
  intros c e.
  destruct (ensure_token_refresh_first e (mkWorld ∅ (Some c) [] 0)
              (mkWorld c (Some c) [] 0)) as (later & Hlog & _); try reflexivity.
  exists later. exact Hlog.
Defined.

Lemma post_for_token_turned_down e data w r :
  server e (requests_of (log (sent (Post MAL_TOKEN_URL data) w))) = Some r →
  status_code r ≠ 200 →
  post_for_token e data w = (Ok JNull, sent (Post MAL_TOKEN_URL data) w).
Proof.
  intros Hs Hst. rewrite post_for_token_eq. cbv zeta. rewrite Hs.
  apply Z.eqb_neq in Hst. by rewrite Hst.
Qed.

Lemma post_for_token_granted e data w r j :
  server e (requests_of (log (sent (Post MAL_TOKEN_URL data) w))) = Some r →
  status_code r = 200 →
  body r = Some j →
  post_for_token e data w = (Ok j, sent (Post MAL_TOKEN_URL data) w).
Proof.
  intros Hs Hst Hb. rewrite post_for_token_eq. cbv zeta. by rewrite Hs, Hst, Hb.
Qed.

(** X5.  When the refresh exchange is turned down (any status but
    200) and an authorization code with its verifier is stored, the
    code form is sent next, and a well-formed answer to it is applied
    and saved. *)
Theorem ensure_token_falls_back_to_code (e : env) (w w1 : world) (r1 r2 : response)
    (d : list (string * json)) (n : Z) :
  let c := default ∅ (disk w) in
  let w2 := sent (Post MAL_TOKEN_URL (code_form c))
              (sent (Post MAL_TOKEN_URL (refresh_form c)) w1) in
  token_is_valid e (loaded w) = (Ok false, w1) →
  truthy (default JNull (c !! "client_id")) = true →
  truthy (default JNull (c !! "client_secret")) = true →
  truthy (default JNull (c !! "refresh_token")) = true →
  truthy (default JNull (c !! "authorization_code")) = true →
  truthy (default JNull (c !! "code_verifier")) = true →
  server e (requests_of (Sent (Post MAL_TOKEN_URL (refresh_form c)) :: log w1)) = Some r1 →
  status_code r1 ≠ 200 →
  server e (requests_of (log w2)) = Some r2 →
  status_code r2 = 200 →
  body r2 = Some (JObj d) →
  well_formed_token_response d n →
  ensure_token e w = (Ok (), applied e d n w2).
Proof.
  intros c w2 Hv Hid Hsec Hrt Hcode Hver Hs1 Hst1 Hs2 Hst2 Hb2 Hwf.
  destruct (token_is_valid_frame _ _ _ _ Hv) as (Hc & Hd & Hl).
  simpl in Hc, Hd, Hl. fold c in Hc.
  rewrite ensure_token_eq, Hv, ensure_token_slow_eq. simpl.
  rewrite Hc, Hid, Hsec, Hrt. simpl.
  rewrite (post_for_token_turned_down e (refresh_form c) w1 r1 Hs1 Hst1). simpl.
  rewrite ensure_token_code_flow_eq. simpl. rewrite Hc, Hcode, Hver. simpl.
  fold (code_form c).
  rewrite (post_for_token_granted e (code_form c) _ r2 (JObj d) Hs2 Hst2 Hb2).
  assert (truthy (JObj d) = true) as ->.
  { destruct Hwf as [Hat _]. destruct d; [discriminate|done]. }
  by apply apply_token_response_ok.
Qed.

Lemma ensure_token_falls_back_to_code_witness :
  let c : gmap string json :=
    list_to_map [("client_id", JStr "id"); ("client_secret", JStr "sec");
                 ("refresh_token", JStr "stale"); ("authorization_code", JStr "code");
                 ("code_verifier", JStr "ver")] in
  let granted := mkResponse 200 ""
                   (Some (JObj [("access_token", JStr "tok"); ("expires_in", JInt 3600)])) in
  let e := mkEnv (λ l, match l with
                       | [_] => Some (mkResponse 400 "invalid_grant" None)
                       | _ => Some granted
                       end) (λ _, 1000) in
  (ensure_token e (mkWorld ∅ (Some c) [] 0)).1 = Ok ()
  ∧ requests_of (log (ensure_token e (mkWorld ∅ (Some c) [] 0)).2)
    = [Post MAL_TOKEN_URL (code_form c); Post MAL_TOKEN_URL (refresh_form c)].
Proof.
  intros c granted e.
  rewrite (ensure_token_falls_back_to_code e (mkWorld ∅ (Some c) [] 0)
             (mkWorld c (Some c) [] 0) (mkResponse 400 "invalid_grant" None) granted
             [("access_token", JStr "tok"); ("expires_in", JInt 3600)] 3600);
    try reflexivity.
  - split; reflexivity.
  - simpl. lia.
  - split; reflexivity.
Defined.

(** ** Token manager: failures *)

Lemma keeps_file_quiet {A} (m : M A) :
  (∀ w, disk (m w).2 = disk w ∧ log (m w).2 = log w) → keeps_file m.
Proof. intros H w. destruct (H w) as [-> ->]. done. Qed.

Lemma keeps_file_post_for_token e data : keeps_file (post_for_token e data).
Proof.
  intros w. destruct (post_for_token e data w) as [r w'] eqn:H.
  apply post_for_token_inv in H as [-> _]. done.
Qed.

Lemma keeps_file_token_is_valid e : keeps_file (token_is_valid e).
Proof.
  apply keeps_file_quiet. intros w.
  destruct (token_is_valid e w) as [r w1] eqn:H.
  apply token_is_valid_frame in H as (_ & Hd & Hl). done.
Qed.

Lemma writes_on_return_only_bind {A B} (m : M A) (f : A → M B) :
  keeps_file m → (∀ a, writes_on_return_only (f a)) →
  writes_on_return_only (m ≫= f).
Proof.
  intros Hm Hf w x w' H. destruct (Hm w) as [Hd Hl].
  apply bind_inv in H as [(a & w1 & Hmw & Hfa)|(x' & Hmw & _)];
    rewrite Hmw in Hd, Hl; simpl in Hd, Hl.
  - destruct (Hf a w1 x w' Hfa) as [-> ->]. done.
  - done.
Qed.

Lemma writes_on_return_only_quiet {A} (m : M A) :
  (∀ w, disk (m w).2 = disk w ∧ log (m w).2 = log w) → writes_on_return_only m.
Proof.
  intros H w x w' Hm. destruct (H w) as [Hd Hl]. rewrite Hm in Hd, Hl.
  simpl in Hd, Hl. by rewrite Hd, Hl.
Qed.

Lemma writes_on_return_only_apply e j : writes_on_return_only (apply_token_response e j).
Proof.
  intros w x w' H.
  destruct (apply_token_response_cases e j w)
    as [(d & n & _ & _ & Hok)|(x' & w'' & Hr & Hd & Hl)]; [congruence|].
  rewrite Hr in H. injection H as _ <-. by rewrite Hd, Hl.
Qed.

Lemma writes_on_return_only_code_flow e cid cs :
  writes_on_return_only (ensure_token_code_flow e cid cs).
Proof.
  unfold ensure_token_code_flow.
  apply writes_on_return_only_bind; [by apply keeps_file_quiet|]. intros code.
  apply writes_on_return_only_bind; [by apply keeps_file_quiet|]. intros ver.
  destruct (truthy code && truthy ver); [|by apply writes_on_return_only_quiet].
  apply writes_on_return_only_bind; [apply keeps_file_post_for_token|]. intros j.
  destruct (truthy j);
    [apply writes_on_return_only_apply|by apply writes_on_return_only_quiet].
Qed.

Lemma writes_on_return_only_ensure_token e : writes_on_return_only (ensure_token e).
Proof.
  unfold ensure_token.
  apply writes_on_return_only_bind; [by apply keeps_file_quiet|]. intros _.
  apply writes_on_return_only_bind; [apply keeps_file_token_is_valid|]. intros valid.
  destruct valid; [by apply writes_on_return_only_quiet|].
  apply writes_on_return_only_bind; [by apply keeps_file_quiet|]. intros cid.
  apply writes_on_return_only_bind; [by apply keeps_file_quiet|]. intros cs.
  destruct (negb (truthy cid) || negb (truthy cs));
    [by apply writes_on_return_only_quiet|].
  apply writes_on_return_only_bind; [by apply keeps_file_quiet|]. intros rt.
  destruct (truthy rt); [|apply writes_on_return_only_code_flow].
  apply writes_on_return_only_bind; [apply keeps_file_post_for_token|]. intros j.
  destruct (truthy j);
    [apply writes_on_return_only_apply|apply writes_on_return_only_code_flow].
Qed.

(** X6.  When [ensure_token] raises, for whatever reason, the
    credential file holds what it held before and was not written. *)
Theorem ensure_token_failure_keeps_file (e : env) (w w' : world) (x : exn) :
  ensure_token e w = (Raise x, w') →
  disk w' = disk w
  ∧ count_events is_saved (log w') = count_events is_saved (log w).
Proof. apply writes_on_return_only_ensure_token. Qed.

Lemma ensure_token_failure_keeps_file_witness :
  let c : gmap string json :=
    list_to_map [("client_id", JStr "id"); ("client_secret", JStr "sec");
                 ("refresh_token", JStr "r0")] in
  let e := mkEnv (λ _, Some (mkResponse 200 "" (Some (JObj [("token_type", JStr "Bearer")]))))
                 (λ _, 1000) in
  disk (ensure_token e (mkWorld ∅ (Some c) [] 0)).2 = Some c.
Proof.
  intros c e.
  apply (ensure_token_failure_keeps_file e (mkWorld ∅ (Some c) [] 0)
           (ensure_token e (mkWorld ∅ (Some c) [] 0)).2
           (RuntimeError "token response didn't include access_token")).
  reflexivity.
Defined.

(** X7.  A stored record with an access token and an [expires_at]
    that [int] does not accept (a [null], a word) makes [ensure_token]
    raise that conversion error at the validity check: nothing is
    sent, so the token is never renewed until the record is repaired. *)
Theorem ensure_token_unreadable_expiry (e : env) (w : world) (c : gmap string json)
    (x : exn) :
  disk w = Some c →
  truthy (default JNull (c !! "access_token")) = true →
  py_int (default (JInt 0) (c !! "expires_at")) = Raise x →
  ensure_token e w = (Raise x, mkWorld c (Some c) (log w) (S (ticks w))).
Proof.
  intros Hd Hat Hx. rewrite ensure_token_eq, token_is_valid_eq. unfold loaded, ticked.
  simpl. rewrite Hd. simpl. by rewrite Hat, Hx.
Qed.

Lemma ensure_token_unreadable_expiry_witness :
  let c : gmap string json :=
    list_to_map [("client_id", JStr "id"); ("client_secret", JStr "sec");
                 ("refresh_token", JStr "r0"); ("access_token", JStr "tok");
                 ("expires_at", JNull)] in
  ensure_token (mkEnv (λ _, None) (λ _, 1000)) (mkWorld ∅ (Some c) [] 0)
  = (Raise TypeError, mkWorld c (Some c) [] 1).
Proof.
  intros c.
  apply (ensure_token_unreadable_expiry (mkEnv (λ _, None) (λ _, 1000))
           (mkWorld ∅ (Some c) [] 0) c TypeError); reflexivity.
Defined.

Lemma ensure_token_valid_returns e w c n :
  disk w = Some c →
  truthy (default JNull (c !! "access_token")) = true →
  py_int (default (JInt 0) (c !! "expires_at")) = Ok n →
  clock e (ticks w) + 60 < n →
  ensure_token e w = (Ok (), mkWorld c (Some c) (log w) (S (ticks w))).
Proof.
  intros Hd Hat Hn Hlt. rewrite ensure_token_eq, token_is_valid_eq.
  unfold loaded, ticked. simpl. rewrite Hd. simpl. rewrite Hat, Hn.
  apply Z.ltb_lt in Hlt. by rewrite Hlt.
Qed.

Lemma ensure_token_returns_saved e w w' :
  ensure_token e w = (Ok (), w') →
  disk w' = Some (config w')
  ∧ truthy (default JNull (config w' !! "access_token")) = true.
Proof.
  intros H. apply ensure_token_inv in H as [(-> & Hat & _)|Hx].
  - simpl in *. destruct (disk w) as [c|]; simpl in *; [done|].
    by rewrite lookup_empty in Hat.
  - destruct Hx as (data & w1 & resp & d & n & _ & _ & _ & _ & _ & _ & Hwf & ->).
    split; [done|]. rewrite applied_access_token. apply Hwf.
Qed.

(** X8.  After [ensure_token] has returned, a second call made while
    the stored token still has more than 60 seconds left returns at
    once: it sends nothing and leaves memory and file as they are. *)
Theorem ensure_token_second_call_is_free (e : env) (w w' : world) (n : Z) :
  ensure_token e w = (Ok (), w') →
  py_int (default (JInt 0) (config w' !! "expires_at")) = Ok n →
  clock e (ticks w') + 60 < n →
  ensure_token e w'
  = (Ok (), mkWorld (config w') (disk w') (log w') (S (ticks w'))).
Proof.
  intros H Hn Hlt. apply ensure_token_returns_saved in H as [Hd Hat].
  rewrite (ensure_token_valid_returns e w' (config w') n Hd Hat Hn Hlt).
  by rewrite Hd.
Qed.

Lemma ensure_token_second_call_is_free_witness :
  let c : gmap string json :=
    list_to_map [("client_id", JStr "id"); ("client_secret", JStr "sec");
                 ("refresh_token", JStr "r0")] in
  let e := mkEnv (λ _, Some (mkResponse 200 ""
                    (Some (JObj [("access_token", JStr "tok"); ("expires_in", JInt 3600)]))))
                 (λ t, 1000 + Z.of_nat t) in
  let w' := (ensure_token e (mkWorld ∅ (Some c) [] 0)).2 in
  requests_of (log (ensure_token e w').2) = requests_of (log w').
Proof.
  intros c e w'.
  rewrite (ensure_token_second_call_is_free e (mkWorld ∅ (Some c) [] 0) w' 4600).
  - reflexivity.
  - reflexivity.
  - reflexivity.
  - vm_compute. reflexivity.
Defined.

(** X9.  A token response that is a record without a truthy
    [access_token] is refused with a [RuntimeError] and changes
    nothing: not the record in memory, not the file, not the clock
    count. *)
Theorem apply_token_response_without_access_token (e : env) (d : list (string * json))
    (w : world) :
  truthy (dict_get "access_token" d) = false →
  apply_token_response e (JObj d) w
  = (Raise (RuntimeError "token response didn't include access_token"), w).
Proof.
  intros Hat. unfold apply_token_response, mbind, M_bind, lift, py_get, py_get_default.
  simpl. change (dict_get_default "access_token" JNull d) with (dict_get "access_token" d).
  by rewrite Hat.
Qed.

Lemma apply_token_response_without_access_token_witness :
  let w := mkWorld {[ "refresh_token" := JStr "r0" ]} None [] 0 in
  apply_token_response (mkEnv (λ _, None) (λ _, 1000))
    (JObj [("error", JStr "invalid_grant"); ("access_token", JStr "")]) w
  = (Raise (RuntimeError "token response didn't include access_token"), w).
Proof.
  intros w.
  apply (apply_token_response_without_access_token (mkEnv (λ _, None) (λ _, 1000))
           [("error", JStr "invalid_grant"); ("access_token", JStr "")] w).
  reflexivity.
Defined.

(** X10.  A token response with an access token but an [expires_in]
    that [int] does not accept makes [apply_token_response] raise
    after it has put the new tokens into the record in memory and
    before it saves: the file keeps the old record, memory holds the
    new token and the old [expires_at]. *)
Theorem apply_token_response_unreadable_expires_in (e : env) (d : list (string * json))
    (x : exn) (w : world) :
  truthy (dict_get "access_token" d) = true →
  py_int (dict_get_default "expires_in" (JInt 0) d) = Raise x →
  ∃ w', apply_token_response e (JObj d) w = (Raise x, w')
        ∧ config w' !! "access_token" = Some (dict_get "access_token" d)
        ∧ config w' !! "expires_at" = config w !! "expires_at"
        ∧ disk w' = disk w
        ∧ log w' = log w.
Proof.
  intros Hat Hx. unfold apply_token_response, mbind, M_bind, lift, py_get, py_get_default,
    config_set, now_ts.
  simpl. change (dict_get_default "access_token" JNull d) with (dict_get "access_token" d).
  rewrite Hat. simpl.
  destruct (truthy (dict_get_default "refresh_token" JNull d)); simpl; rewrite Hx;
    eexists; (split; [reflexivity|]); simpl.
  - rewrite lookup_insert_ne by done. rewrite lookup_insert_eq.
    rewrite !lookup_insert_ne by done. done.
  - rewrite lookup_insert_eq. rewrite lookup_insert_ne by done. done.
Qed.

Lemma apply_token_response_unreadable_expires_in_witness :
  let d := [("access_token", JStr "tok"); ("expires_in", JNull)] in
  let w := mkWorld {[ "expires_at" := JInt 5 ]} (Some {[ "expires_at" := JInt 5 ]}) [] 0 in
  ∃ w', apply_token_response (mkEnv (λ _, None) (λ _, 1000)) (JObj d) w = (Raise TypeError, w')
        ∧ config w' !! "access_token" = Some (JStr "tok")
        ∧ disk w' = disk w.
Proof.
  intros d w.
  destruct (apply_token_response_unreadable_expires_in (mkEnv (λ _, None) (λ _, 1000))
              d TypeError w) as (w' & Hrun & Hat & _ & Hd & _); try reflexivity.
  exists w'. split; [exact Hrun|]. split; [exact Hat|exact Hd].
Defined.

(** X11.  A token granted for 60 seconds or less is never found valid
    afterwards (the clock not running backwards): right after it was
    applied and saved, the validity check of the next [ensure_token]
    already fails, so that call asks for a new token again. *)
Theorem short_lived_token_is_never_valid (e : env) (d : list (string * json)) (n : Z)
    (w : world) :
  well_formed_token_response d n →
  n ≤ 60 →
  clock_steady e (ticks w) →
  ∃ w1, apply_token_response e (JObj d) w = (Ok (), w1)
        ∧ token_is_valid e (loaded w1) = (Ok false, ticked w1).
Proof.
  intros Hwf Hn Hclock. exists (applied e d n w).
  split; [by apply apply_token_response_ok|].
  rewrite token_is_valid_eq.
  change (config (loaded (applied e d n w))) with (config (applied e d n w)).
  rewrite applied_access_token, applied_expires_at. simpl.
  destruct Hwf as [-> _]. unfold clock_steady in Hclock.
  assert ((clock e (S (ticks w)) + 60 <? clock e (ticks w) + n) = false) as ->
    by (apply Z.ltb_ge; lia).
  reflexivity.
Qed.

Lemma short_lived_token_is_never_valid_witness :
  let d := [("access_token", JStr "tok"); ("expires_in", JInt 60)] in
  let e := mkEnv (λ _, None) (λ _, 1000) in
  ∃ w1, apply_token_response e (JObj d) (mkWorld ∅ None [] 0) = (Ok (), w1)
        ∧ token_is_valid e (loaded w1) = (Ok false, ticked w1).
Proof.
  intros d e.
  apply (short_lived_token_is_never_valid e d 60 (mkWorld ∅ None [] 0)).
  - split; reflexivity.
  - lia.
  - unfold clock_steady. simpl. lia.
Defined.

(** ** List fetcher: one turn of the loop *)

(** A turn, cut at its requests. *)
Lemma animelist_page_eq e u token params items w :
  animelist_page e (JStr u) token params items w =
  let w1 := sent (Get u (Some token) params) w in
  match server e (requests_of (log w1)) with
  | None => (Raise RequestException, w1)
  | Some resp =>
      if status_code resp =? 401 then
        match ensure_token e (discarded w1) with
        | (Raise x, w2) => (Raise x, w2)
        | (Ok _, w2) =>
            let token' := default JNull (config w2 !! "access_token") in
            let w3 := sent (Get u (Some token') []) w2 in
            match server e (requests_of (log w3)) with
            | None => (Raise RequestException, w3)
            | Some resp' =>
                match read_page items resp' with
                | Ok (next_url, items') => (Ok (next_url, token', items'), w3)
                | Raise x => (Raise x, w3)
                end
            end
        end
      else
        match read_page items resp with
        | Ok (next_url, items') => (Ok (next_url, token, items'), w1)
        | Raise x => (Raise x, w1)
        end
  end.
Proof.
  assert (∀ (resp : response) (tok : json) (w0 : world),
            (if negb (status_code resp =? 200)
             then raise (RuntimeError (fetch_failed_msg resp))
             else
               data ← resp_json resp;
               page_items ← lift (py_get_default "data" (JArr []) data);
               items0 ← lift (py_extend items page_items);
               paging ← lift (py_get_default "paging" (JObj []) data);
               next_url ← lift (py_get "next" paging);
               pure (next_url, tok, items0)) w0
            = match read_page items resp with
              | Ok (next_url, items') => (Ok (next_url, tok, items'), w0)
              | Raise x => (Raise x, w0)
              end) as Hrest.
  { intros resp tok w0. unfold read_page.
    destruct (negb (status_code resp =? 200)); [done|].
    unfold mbind, M_bind, resp_json, lift, pure, raise.
    destruct (body resp) as [data|]; simpl; [|done].
    destruct (py_get_default "data" (JArr []) data) as [pi|]; simpl; [|done].
    destruct (py_extend items pi) as [its|]; simpl; [|done].
    destruct (py_get_default "paging" (JObj []) data) as [pg|]; simpl; [|done].
    by destruct (py_get "next" pg). }
  unfold animelist_page, http_get. unfold mbind at 1, M_bind at 1.
  unfold send. cbv beta zeta. fold (sent (Get u (Some token) params) w).
  destruct (server e _) as [resp|]; [|done].
  unfold mbind at 1, M_bind at 1.
  destruct (status_code resp =? 401).
  - rewrite refresh_and_retry_eq. unfold mbind at 1, M_bind at 1.
    destruct (ensure_token e _) as [[[]|x] w2]; [|done].
    unfold mbind at 1, M_bind at 1. unfold config_get, config_get_default.
    cbv beta iota. unfold mbind at 1, M_bind at 1. unfold http_get, send.
    cbv beta zeta.
    fold (sent (Get u (Some (default JNull (config w2 !! "access_token"))) []) w2).
    destruct (server e _) as [resp'|]; [|done].
    unfold pure at 1. cbv beta iota. cbn [fst snd]. apply Hrest.
  - unfold pure at 1. cbv beta iota. cbn [fst snd]. apply Hrest.
Qed.

Lemma fetch_loop_step e fuel u token params items w :
  u ≠ "" →
  fetch_loop e (S fuel) (JStr u) token params items w =
  match animelist_page e (JStr u) token params items w with
  | (Ok (next_url, token', items'), w') => fetch_loop e fuel next_url token' [] items' w'
  | (Raise x, w') => (Raise x, w')
  end.
Proof.
  intros Hu. apply String.eqb_neq in Hu. simpl. rewrite Hu. simpl.
  unfold mbind, M_bind.
  by destruct (animelist_page e (JStr u) token params items w) as [[[[next tok] its]|x] w'].
Qed.

Lemma fetch_loop_done e fuel url token params items w :
  truthy url = false →
  fetch_loop e fuel url token params items w = (Ok (Some items), w).
Proof. intros Hu. destruct fuel; simpl; by rewrite Hu. Qed.

(** X12.  A page answered 200 at the first try adds its [data] after
    the items gathered so far and the loop goes on at [paging.next]
    with the same token and no query parameters; when [next] is missing
    or empty the fetch returns what was gathered. *)
Theorem fetch_loop_follows_next (e : env) (fuel : nat) (u : string) (token : json)
    (params : list (string * json)) (items items' : list json) (w : world)
    (r : response) (next_url : json) :
  u ≠ "" →
  server e (requests_of (log (sent (Get u (Some token) params) w))) = Some r →
  read_page items r = Ok (next_url, items') →
  fetch_loop e (S fuel) (JStr u) token params items w
  = fetch_loop e fuel next_url token [] items' (sent (Get u (Some token) params) w)
  ∧ (truthy next_url = false →
     fetch_loop e (S fuel) (JStr u) token params items w
     = (Ok (Some items'), sent (Get u (Some token) params) w)).
Proof.
  intros Hu Hs Hread.
  assert ((status_code r =? 401) = false) as H401.
  { unfold read_page in Hread. destruct (status_code r =? 200) eqn:H200; [|discriminate].
    apply Z.eqb_eq in H200. rewrite H200. reflexivity. }
  assert (fetch_loop e (S fuel) (JStr u) token params items w
          = fetch_loop e fuel next_url token [] items' (sent (Get u (Some token) params) w))
    as Hstep.
  { rewrite (fetch_loop_step _ _ _ _ _ _ _ Hu), animelist_page_eq. cbv zeta.
    by rewrite Hs, H401, Hread. }
  split; [exact Hstep|]. intros Hend. rewrite Hstep. by apply fetch_loop_done.
Qed.

Lemma fetch_loop_follows_next_witness :
  let page := mkResponse 200 ""
                (Some (JObj [("data", JArr [JInt 3]); ("paging", JObj [])])) in
  let e := mkEnv (λ _, Some page) (λ _, 0) in
  let w := mkWorld ∅ None [] 0 in
  fetch_loop e 1 (JStr "page2") (JStr "tok") [] [JInt 1; JInt 2] w
  = (Ok (Some [JInt 1; JInt 2; JInt 3]), sent (Get "page2" (Some (JStr "tok")) []) w).
Proof.
  intros page e w.
  refine (proj2 (fetch_loop_follows_next e 0 "page2" (JStr "tok") [] [JInt 1; JInt 2]
                   [JInt 1; JInt 2; JInt 3] w page JNull _ _ _) _).
  - discriminate.
  - reflexivity.
  - reflexivity.
  - reflexivity.
Defined.

(** X13.  A first answer whose status is neither 200 nor 401 fails
    the fetch at once with the error that carries that status and
    body: one request was sent, no token was dropped or asked for, and
    record and file are as before. *)
Theorem fetch_loop_other_status_fails (e : env) (fuel : nat) (u : string) (token : json)
    (params : list (string * json)) (items : list json) (w : world) (r : response) :
  u ≠ "" →
  server e (requests_of (log (sent (Get u (Some token) params) w))) = Some r →
  status_code r ≠ 200 →
  status_code r ≠ 401 →
  fetch_loop e (S fuel) (JStr u) token params items w
  = (Raise (RuntimeError (fetch_failed_msg r)), sent (Get u (Some token) params) w).
Proof.
  intros Hu Hs H200 H401.
  rewrite (fetch_loop_step _ _ _ _ _ _ _ Hu), animelist_page_eq. cbv zeta.
  rewrite Hs. apply Z.eqb_neq in H200, H401. rewrite H401. unfold read_page.
  by rewrite H200.
Qed.

Lemma fetch_loop_other_status_fails_witness :
  let e := mkEnv (λ _, Some (mkResponse 503 "busy" None)) (λ _, 0) in
  let w := mkWorld ∅ None [] 0 in
  fetch_loop e 5 (JStr "page") (JStr "tok") [] [] w
  = (Raise (RuntimeError "Failed to fetch animelist: 503 busy"),
     sent (Get "page" (Some (JStr "tok")) []) w).
Proof.
  intros e w.
  apply (fetch_loop_other_status_fails e 4 "page" (JStr "tok") [] [] w
           (mkResponse 503 "busy" None)).
  - discriminate.
  - reflexivity.
  - simpl. lia.
  - simpl. lia.
Defined.

(** X14.  When the first answer is a 401 and a new token is obtained,
    the page is asked for again with the new token and without query
    parameters; a 200 answer to that is read like any page, and the
    following pages are asked for with the new token. *)
Theorem fetch_loop_recovers (e : env) (fuel : nat) (u : string) (token : json)
    (params : list (string * json)) (items items' : list json) (w w2 : world)
    (r1 r2 : response) (next_url : json) :
  let first := Get u (Some token) params in
  let token' := default JNull (config w2 !! "access_token") in
  let retry := Get u (Some token') [] in
  u ≠ "" →
  server e (requests_of (log (sent first w))) = Some r1 →
  status_code r1 = 401 →
  ensure_token e (discarded (sent first w)) = (Ok (), w2) →
  server e (requests_of (log (sent retry w2))) = Some r2 →
  read_page items r2 = Ok (next_url, items') →
  fetch_loop e (S fuel) (JStr u) token params items w
  = fetch_loop e fuel next_url token' [] items' (sent retry w2).
Proof.
  intros first token' retry Hu Hs1 H401 Hens Hs2 Hread.
  rewrite (fetch_loop_step _ _ _ _ _ _ _ Hu), animelist_page_eq. cbv zeta.
  fold first. rewrite Hs1, H401. change (401 =? 401) with true. cbv iota.
  rewrite Hens. fold token'. fold retry. by rewrite Hs2, Hread.
Qed.

Lemma fetch_loop_recovers_witness :
  let c : gmap string json :=
    list_to_map [("client_id", JStr "id"); ("client_secret", JStr "sec");
                 ("refresh_token", JStr "r0"); ("access_token", JStr "old");
                 ("expires_at", JInt 99999)] in
  let granted := mkResponse 200 ""
                   (Some (JObj [("access_token", JStr "new"); ("expires_in", JInt 3600)])) in
  let page := mkResponse 200 "" (Some (JObj [("data", JArr [JInt 7])])) in
  let e := mkEnv (λ l, match l with
                       | Post _ _ :: _ => Some granted
                       | Get _ _ _ :: Post _ _ :: _ => Some page
                       | _ => Some (mkResponse 401 "denied" None)
                       end) (λ _, 1000) in
  let run := fetch_loop e 1 (JStr "page") (JStr "old") [("limit", JInt 100)] []
               (mkWorld c (Some c) [] 1) in
  run.1 = Ok (Some [JInt 7])
  ∧ requests_of (log run.2)
    = [Get "page" (Some (JStr "new")) [];
       Post MAL_TOKEN_URL (refresh_form c);
       Get "page" (Some (JStr "old")) [("limit", JInt 100)]].
Proof.
  intros c granted page e run. subst run.
  rewrite (fetch_loop_recovers e 0 "page" (JStr "old") [("limit", JInt 100)] [] [JInt 7]
             (mkWorld c (Some c) [] 1)
             (ensure_token e (discarded (sent (Get "page" (Some (JStr "old"))
                                                [("limit", JInt 100)])
                                           (mkWorld c (Some c) [] 1)))).2
             (mkResponse 401 "denied" None) page JNull); try reflexivity.
  - split; reflexivity.
  - discriminate.
Defined.

(** X15.  When the first answer is a 401 and no new token can be
    obtained, the fetch raises the token manager's error; the page is
    not asked for again, and the credential file is left without an
    access token. *)
Theorem fetch_loop_recovery_fails (e : env) (fuel : nat) (u : string) (token : json)
    (params : list (string * json)) (items : list json) (w w2 : world)
    (r1 : response) (x : exn) :
  let first := Get u (Some token) params in
  u ≠ "" →
  server e (requests_of (log (sent first w))) = Some r1 →
  status_code r1 = 401 →
  ensure_token e (discarded (sent first w)) = (Raise x, w2) →
  fetch_loop e (S fuel) (JStr u) token params items w = (Raise x, w2)
  ∧ disk w2 = Some (delete "access_token" (config w))
  ∧ gets_to u (log w2) = S (gets_to u (log w)).
Proof.
  intros first Hu Hs1 H401 Hens. split; [|split].
  - rewrite (fetch_loop_step _ _ _ _ _ _ _ Hu), animelist_page_eq. cbv zeta.
    fold first. rewrite Hs1, H401. change (401 =? 401) with true. cbv iota.
    by rewrite Hens.
  - apply writes_on_return_only_ensure_token in Hens as [-> _]. reflexivity.
  - pose proof (ensure_token_gets_to u e (discarded (sent first w))) as Hget.
    rewrite Hens in Hget. simpl in Hget. rewrite Hget.
    unfold gets_to, count_events. simpl. by rewrite String.eqb_refl.
Qed.

Lemma fetch_loop_recovery_fails_witness :
  let c : gmap string json :=
    list_to_map [("client_id", JStr "id"); ("client_secret", JStr "sec");
                 ("access_token", JStr "old"); ("expires_at", JInt 99999)] in
  let e := mkEnv (λ _, Some (mkResponse 401 "denied" None)) (λ _, 1000) in
  let run := fetch_loop e 1 (JStr "page") (JStr "old") [] [] (mkWorld c (Some c) [] 1) in
  run.1 = Raise (RuntimeError no_token_msg)
  ∧ disk run.2 = Some (delete "access_token" c).
Proof.
  intros c e run. subst run.
  destruct (fetch_loop_recovery_fails e 0 "page" (JStr "old") [] [] (mkWorld c (Some c) [] 1)
              (ensure_token e (discarded (sent (Get "page" (Some (JStr "old")) [])
                                            (mkWorld c (Some c) [] 1)))).2
              (mkResponse 401 "denied" None) (RuntimeError no_token_msg))
    as (Hrun & Hdisk & _); try reflexivity.
  - discriminate.
  - rewrite Hrun. split; [reflexivity|exact Hdisk].
Defined.

(** ** List fetcher: the whole loop *)

Lemma read_page_extends items r next_url items' :
  read_page items r = Ok (next_url, items') → ∃ more, items' = (items ++ more)%list.
Proof.
  unfold read_page. destruct (negb _); [discriminate|].
  destruct (body r) as [data|]; [|discriminate].
  destruct (py_get_default "data" (JArr []) data) as [pi|]; simpl; [|discriminate].
  destruct (py_extend items pi) as [its|] eqn:Hext; simpl; [|discriminate].
  destruct (py_get_default "paging" (JObj []) data) as [pg|]; simpl; [|discriminate].
  destruct (py_get "next" pg); simpl; [|discriminate].
  intros [= _ <-]. unfold py_extend in Hext.
  destruct pi; try discriminate; injection Hext as <-; eauto.
Qed.

Lemma animelist_page_extends e url token params items w next_url token' items' w' :
  animelist_page e url token params items w = (Ok (next_url, token', items'), w') →
  ∃ more, items' = (items ++ more)%list.
Proof.
  destruct url as [|b|z|u|l|d]; try discriminate.
  rewrite animelist_page_eq. cbv zeta.
  destruct (server e _) as [r1|]; [|discriminate].
  destruct (status_code r1 =? 401).
  - destruct (ensure_token e _) as [[[]|x] w2]; [|discriminate].
    destruct (server e _) as [r2|]; [|discriminate].
    destruct (read_page items r2) as [[nx its]|] eqn:Hread; [|discriminate].
    intros [= _ _ <- _]. by eapply read_page_extends.
  - destruct (read_page items r1) as [[nx its]|] eqn:Hread; [|discriminate].
    intros [= _ _ <- _]. by eapply read_page_extends.
Qed.

(** X16.  Whatever the pages hold and however many there are, the
    sequence a fetch returns starts with the items it had gathered
    before: later pages only add at the end, nothing is dropped or
    reordered. *)
Theorem fetch_loop_only_appends (e : env) (fuel : nat) (url token : json)
    (params : list (string * json)) (items res : list json) (w w' : world) :
  fetch_loop e fuel url token params items w = (Ok (Some res), w') →
  ∃ more, res = (items ++ more)%list.
Proof.
  revert url token params items w.
  induction fuel as [|fuel IH]; intros url token params items w; simpl.
  - destruct (negb (truthy url)); [|discriminate].
    intros [= <- _]. exists []. by rewrite app_nil_r.
  - destruct (negb (truthy url)).
    + intros [= <- _]. exists []. by rewrite app_nil_r.
    + unfold mbind, M_bind.
      destruct (animelist_page e url token params items w)
        as [[[[next tok] its]|x] w1] eqn:Hpage; [|discriminate].
      apply animelist_page_extends in Hpage as [more1 ->].
      intros Hrest. apply IH in Hrest as [more2 ->].
      exists (more1 ++ more2)%list. by rewrite app_assoc.
Qed.

Lemma fetch_loop_only_appends_witness :
  let page1 := mkResponse 200 ""
                 (Some (JObj [("data", JArr [JInt 2]);
                              ("paging", JObj [("next", JStr "page2")])])) in
  let page2 := mkResponse 200 "" (Some (JObj [("data", JArr [JInt 3])])) in
  let e := mkEnv (λ l, match l with
                       | [_] => Some page1
                       | _ => Some page2
                       end) (λ _, 0) in
  let run := fetch_loop e 2 (JStr "page1") (JStr "tok") [] [JInt 1] (mkWorld ∅ None [] 0) in
  ∃ more, [JInt 1; JInt 2; JInt 3] = ([JInt 1] ++ more)%list.
Proof.
  intros page1 page2 e run.
  apply (fetch_loop_only_appends e 2 (JStr "page1") (JStr "tok") [] [JInt 1]
           [JInt 1; JInt 2; JInt 3] (mkWorld ∅ None [] 0) run.2).
  reflexivity.
Defined.

Lemma is_get_with_params_post u d : is_get_with_params (Sent (Post u d)) = false.
Proof. reflexivity. Qed.

Lemma is_get_with_params_saved c :
  is_Some (c !! "access_token") → is_get_with_params (Saved c) = false.
Proof. reflexivity. Qed.

Lemma keeps_params_http_get_bare e url auth :
  keeps is_get_with_params (http_get e url auth []).
Proof.
  intros w. unfold http_get, send, raise.
  destruct url as [|b|z|u|l|d]; simpl; try done.
  by destruct (server e _).
Qed.

Lemma keeps_params_recovery e url : keeps is_get_with_params (refresh_and_retry e url).
Proof.
  unfold refresh_and_retry.
  apply keeps_bind; [by apply keeps_silent|]. intros _.
  apply keeps_bind; [by intros w|]. intros _.
  apply keeps_bind;
    [apply (keeps_ensure_token _ is_get_with_params_post is_get_with_params_saved)|].
  intros _. apply keeps_bind; [by apply keeps_silent|]. intros tok.
  apply keeps_bind; [apply keeps_params_http_get_bare|]. intros resp.
  by apply keeps_silent.
Qed.

Lemma adds_at_most_params_page e url token params items :
  adds_at_most is_get_with_params 1 (animelist_page e url token params items).
Proof.
  unfold animelist_page.
  apply (adds_at_most_bind _ 1 0); [apply adds_at_most_http_get|]. intros resp.
  apply adds_at_most_keeps. apply keeps_bind.
  - destruct (status_code resp =? 401);
      [apply keeps_params_recovery|by apply keeps_silent].
  - intros rt. apply (keeps_page_tail is_get_with_params).
Qed.

Lemma keeps_params_page_bare e url token items :
  keeps is_get_with_params (animelist_page e url token [] items).
Proof.
  unfold animelist_page.
  apply keeps_bind; [apply keeps_params_http_get_bare|]. intros resp.
  apply keeps_bind.
  - destruct (status_code resp =? 401);
      [apply keeps_params_recovery|by apply keeps_silent].
  - intros rt. apply (keeps_page_tail is_get_with_params).
Qed.

Lemma keeps_params_fetch_loop_bare e fuel url token items :
  keeps is_get_with_params (fetch_loop e fuel url token [] items).
Proof.
  revert url token items.
  induction fuel as [|fuel IH]; intros url token items; simpl.
  - destruct (negb (truthy url)); by apply keeps_silent.
  - destruct (negb (truthy url)); [by apply keeps_silent|].
    apply keeps_bind; [apply keeps_params_page_bare|].
    intros [[next tok] its]. apply IH.
Qed.

Lemma adds_at_most_params_fetch_loop e fuel url token params items :
  adds_at_most is_get_with_params 1 (fetch_loop e fuel url token params items).
Proof.
  destruct fuel as [|fuel]; simpl.
  - apply (adds_at_most_weaken _ 0); [lia|]. apply adds_at_most_keeps.
    destruct (negb (truthy url)); by apply keeps_silent.
  - destruct (negb (truthy url)).
    + apply (adds_at_most_weaken _ 0); [lia|]. by apply adds_at_most_keeps, keeps_silent.
    + apply (adds_at_most_bind _ 1 0); [apply adds_at_most_params_page|].
      intros [[next tok] its]. apply adds_at_most_keeps, keeps_params_fetch_loop_bare.
Qed.

(** X17.  In one call of [fetch_all_animelist] at most one request
    carries query parameters, however many pages and retries follow;
    and a loop entered without parameters never sends any. *)
Theorem fetch_sends_params_once (e : env) (fuel : nat) (username status : string)
    (w : world) :
  (count_events is_get_with_params (log (fetch_all_animelist e fuel username status w).2)
   ≤ count_events is_get_with_params (log w) + 1)%nat
  ∧ ∀ url token items w0,
      count_events is_get_with_params (log (fetch_loop e fuel url token [] items w0).2)
      = count_events is_get_with_params (log w0).
Proof.
  split.
  - revert w.
    change (adds_at_most is_get_with_params 1 (fetch_all_animelist e fuel username status)).
    unfold fetch_all_animelist.
    apply (adds_at_most_bind _ 0 1).
    { apply adds_at_most_keeps.
      apply (keeps_ensure_token _ is_get_with_params_post is_get_with_params_saved). }
    intros _.
    apply (adds_at_most_bind _ 0 1); [by apply adds_at_most_keeps, keeps_silent|].
    intros tok. apply adds_at_most_params_fetch_loop.
  - intros url token items w0. apply keeps_params_fetch_loop_bare.
Qed.

(** ** Cross-reference loader: errors and contents *)

Lemma fetch_anime_ids_map_eq e w :
  fetch_anime_ids_map e w =
  let w1 := sent (Get ANIME_IDS_RAW_URL None []) w in
  (match server e (requests_of (log w1)) with
   | None => Raise RequestException
   | Some r =>
       if (400 <=? status_code r) && (status_code r <? 600)
       then Raise (HTTPError (status_code r))
       else
         match body r with
         | None => Raise JSONDecodeError
         | Some (JObj kvs) => Ok (anime_ids_loop ∅ kvs)
         | Some _ => Raise AttributeError
         end
   end, w1).
Proof.
  unfold fetch_anime_ids_map, mbind, M_bind, send, sent, raise_for_status, resp_json,
    pure, raise. simpl.
  destruct (server e _) as [r|]; [|done].
  destruct ((400 <=? status_code r) && (status_code r <? 600)); [done|].
  destruct (body r) as [j|]; [|done]. by destruct j.
Qed.

(** X18.  [fetch_anime_ids_map] sends one request, without an
    [Authorization] header, and touches neither the credential record
    nor the file, whatever the outcome.  A 4xx or 5xx status raises
    [HTTPError] before the body is looked at; a body that is not JSON,
    or JSON that is not an object, raises as well. *)
Theorem fetch_anime_ids_map_failures (e : env) (w : world) :
  let w1 := sent (Get ANIME_IDS_RAW_URL None []) w in
  (fetch_anime_ids_map e w).2 = w1
  ∧ (server e (requests_of (log w1)) = None →
     (fetch_anime_ids_map e w).1 = Raise RequestException)
  ∧ (∀ r, server e (requests_of (log w1)) = Some r →
          400 ≤ status_code r < 600 →
          (fetch_anime_ids_map e w).1 = Raise (HTTPError (status_code r)))
  ∧ (∀ r, server e (requests_of (log w1)) = Some r →
          ¬ (400 ≤ status_code r < 600) →
          match body r with
          | None => (fetch_anime_ids_map e w).1 = Raise JSONDecodeError
          | Some (JObj kvs) => (fetch_anime_ids_map e w).1 = Ok (anime_ids_loop ∅ kvs)
          | Some _ => (fetch_anime_ids_map e w).1 = Raise AttributeError
          end).
Proof.
  intros w1. rewrite fetch_anime_ids_map_eq. cbv zeta. fold w1. cbn [fst snd].
  split; [done|]. split; [by intros ->|]. split.
  - intros r -> [H1 H2]. apply Z.leb_le in H1. apply Z.ltb_lt in H2.
    by rewrite H1, H2.
  - intros r -> Hout.
    assert ((400 <=? status_code r) && (status_code r <? 600) = false) as ->.
    { apply not_true_is_false. intros [H1%Z.leb_le H2%Z.ltb_lt]%andb_true_iff.
      apply Hout. lia. }
    destruct (body r) as [j|]; [|done]. by destruct j.
Qed.

Lemma fetch_anime_ids_map_failures_witness :
  let e := mkEnv (λ _, Some (mkResponse 404 "Not Found" (Some (JObj [("7", JObj [])]))))
                 (λ _, 0) in
  (fetch_anime_ids_map e (mkWorld ∅ None [] 0)).1 = Raise (HTTPError 404).
Proof.
  intros e.
  destruct (fetch_anime_ids_map_failures e (mkWorld ∅ None [] 0)) as (_ & _ & Hst & _).
  apply (Hst (mkResponse 404 "Not Found" (Some (JObj [("7", JObj [])])))).
  - reflexivity.
  - simpl. lia.
Defined.

Lemma anime_ids_loop_sound m kvs n v :
  anime_ids_loop m kvs !! n = Some v →
  m !! n = Some v ∨ ∃ k, (k, v) ∈ kvs ∧ mal_id_of k v = Some n.
Proof.
  revert m. induction kvs as [|[k val] kvs IH]; intros m; simpl; [auto|].
  destruct (mal_id_of k val) as [n'|] eqn:Hk.
  - intros H. apply IH in H as [H|(k' & Hin & Hk')].
    + destruct (decide (n' = n)) as [->|Hne].
      * rewrite lookup_insert_eq in H. injection H as <-.
        right. exists k. split; [left|done].
      * rewrite lookup_insert_ne in H by done. by left.
    + right. exists k'. split; [by right|done].
  - intros H. apply IH in H as [H|(k' & Hin & Hk')]; [by left|].
    right. exists k'. split; [by right|done].
Qed.

Lemma anime_ids_loop_keeps_keys m kvs n :
  is_Some (m !! n) → is_Some (anime_ids_loop m kvs !! n).
Proof.
  revert m. induction kvs as [|[k val] kvs IH]; intros m; simpl; [done|].
  intros Hm. destruct (mal_id_of k val) as [n'|]; [|by apply IH].
  apply IH. destruct (decide (n' = n)) as [->|Hne].
  - rewrite lookup_insert_eq. eauto.
  - by rewrite lookup_insert_ne.
Qed.

Lemma anime_ids_loop_complete m kvs k v n :
  (k, v) ∈ kvs → mal_id_of k v = Some n → is_Some (anime_ids_loop m kvs !! n).
Proof.
  revert m. induction kvs as [|[k' val] kvs IH]; intros m Hin Hk; simpl.
  - by apply elem_of_nil in Hin.
  - apply elem_of_cons in Hin as [[= <- <-]|Hin].
    + rewrite Hk. apply anime_ids_loop_keeps_keys. rewrite lookup_insert_eq. eauto.
    + destruct (mal_id_of k' val); by apply IH.
Qed.

Lemma anime_ids_loop_size m kvs :
  (size (anime_ids_loop m kvs) ≤ size m + length kvs)%nat.
Proof.
  revert m. induction kvs as [|[k val] kvs IH]; intros m; simpl; [lia|].
  destruct (mal_id_of k val) as [n|].
  - specialize (IH (<[n := val]> m)).
    destruct (m !! n) eqn:Hn.
    + rewrite map_size_insert_Some in IH by eauto. lia.
    + rewrite map_size_insert_None in IH by done. lia.
  - specialize (IH m). lia.
Qed.

(** X19.  The map built from a document holds a key exactly when some
    entry of the document derives it, every value it holds is the value
    of such an entry, and it has no more keys than the document has
    entries. *)
Theorem crossref_map_contents (kvs : list (string * json)) (n : Z) :
  (is_Some (anime_ids_loop ∅ kvs !! n)
   ↔ ∃ k v, (k, v) ∈ kvs ∧ mal_id_of k v = Some n)
  ∧ (∀ v, anime_ids_loop ∅ kvs !! n = Some v →
          ∃ k, (k, v) ∈ kvs ∧ mal_id_of k v = Some n)
  ∧ (size (anime_ids_loop ∅ kvs) ≤ length kvs)%nat.
Proof.
  assert (∀ v, anime_ids_loop ∅ kvs !! n = Some v →
               ∃ k, (k, v) ∈ kvs ∧ mal_id_of k v = Some n) as Hsound.
  { intros v H. apply anime_ids_loop_sound in H as [H|H]; [|done].
    by rewrite lookup_empty in H. }
  split; [split|split].
  - intros [v Hv]. destruct (Hsound v Hv) as (k & Hin & Hk). eauto.
  - intros (k & v & Hin & Hk). by eapply anime_ids_loop_complete.
  - exact Hsound.
  - pose proof (anime_ids_loop_size ∅ kvs) as H. rewrite map_size_empty in H. lia.
Qed.

(** ** Enrichment merger: what is added, and failures *)

Lemma add_ids_enrichment entry d :
  add_ids entry (JObj d) = Ok (entry ++ enrichment d)%list.
Proof.
  unfold add_ids, enrichment. simpl.
  change (dict_get_default "tvdb_id" JNull d) with (dict_get "tvdb_id" d).
  change (dict_get_default "imdb_id" JNull d) with (dict_get "imdb_id" d).
  assert (∀ k, dict_has k d = false → dict_get k d = JNull) as Habs.
  { intros k Hk. unfold dict_get, dict_get_default.
    destruct (dict_find k d) eqn:Hf; [|done].
    assert (dict_has k d = true) by (apply dict_has_find; rewrite Hf; eauto).
    congruence. }
  destruct (dict_has "tvdb_id" d) eqn:Ht; simpl;
    destruct (dict_has "imdb_id" d) eqn:Hi; simpl;
    try rewrite (Habs _ Ht); try rewrite (Habs _ Hi); simpl;
    repeat case_match; simpl; rewrite ?app_nil_r, <- ?app_assoc; reflexivity.
Qed.

(** X20.  For an entry whose identifier reads as [k] and a record
    stored under [k], the output entry is [title], [malId], then [id]
    when the record's [tvdb_id] is there and neither [null] nor empty
    (so a [tvdb_id] of 0 is kept), then [imdb_id] when the record's
    [imdb_id] is truthy (so an [imdb_id] of 0 is not). *)
Theorem output_entry_enriched (item : json) (m : gmap Z json) (it nd d : list (string * json))
    (k : Z) :
  item = JObj it →
  item_node item = JObj nd →
  truthy (dict_get "id" nd) = true →
  py_int (dict_get "id" nd) = Ok k →
  m !! k = Some (JObj d) →
  output_entry item m = Ok (Some (JObj (base_entry item ++ enrichment d))).
Proof.
  intros -> Hnode Hid Hk Hm.
  unfold base_entry, item_title, item_mal_id. rewrite Hnode.
  unfold item_node in Hnode. unfold output_entry. simpl.
  change (dict_get_default "node" JNull it) with (dict_get "node" it).
  rewrite Hnode. simpl.
  change (dict_get_default "id" JNull nd) with (dict_get "id" nd).
  change (dict_get_default "title" JNull nd) with (dict_get "title" nd).
  rewrite Hid. simpl. rewrite Hk. simpl. rewrite Hm. simpl.
  destruct d as [|kv d]; [reflexivity|].
  by rewrite add_ids_enrichment.
Qed.

Lemma output_entry_enriched_witness :
  let item := JObj [("node", JObj [("id", JInt 1); ("title", JStr "A")])] in
  let m : gmap Z json :=
    {[ 1 := JObj [("tvdb_id", JInt 0); ("imdb_id", JInt 0); ("anidb_id", JInt 5)] ]} in
  output_entry item m
  = Ok (Some (JObj [("title", JStr "A"); ("malId", JInt 1); ("id", JInt 0)])).
Proof.
  intros item m.
  apply (output_entry_enriched item m
           [("node", JObj [("id", JInt 1); ("title", JStr "A")])]
           [("id", JInt 1); ("title", JStr "A")]
           [("tvdb_id", JInt 0); ("imdb_id", JInt 0); ("anidb_id", JInt 5)] 1);
    reflexivity.
Defined.

Lemma build_output_loop_from_empty out items m :
  build_output_loop out items m
  = build_output_loop [] items m ≫= λ r, Ok (out ++ r)%list.
Proof.
  revert out. induction items as [|item items IH]; intros out; simpl.
  - by rewrite app_nil_r.
  - destruct (output_entry item m) as [[entry|]|]; simpl; [| |done].
    + rewrite (IH (out ++ [entry])%list), (IH [entry]).
      destruct (build_output_loop [] items m) as [r|]; simpl; [|done].
      by rewrite <- app_assoc.
    + apply IH.
Qed.

(** X21.  Merging a list cut in two gives the two merges one after
    the other: entries are treated one by one, none depends on its
    neighbours. *)
Theorem build_output_list_app (l1 l2 : list json) (m : gmap Z json) :
  build_output_list (l1 ++ l2) m
  = build_output_list l1 m ≫= λ o1,
    build_output_list l2 m ≫= λ o2, Ok (o1 ++ o2)%list.
Proof.
  unfold build_output_list. rewrite build_output_loop_app.
  destruct (build_output_loop [] l1 m) as [o1|]; simpl; [|done].
  apply build_output_loop_from_empty.
Qed.

(** X22.  If the treatment of one entry raises, the whole merge
    raises that error, whatever comes after the entry: no partial list
    is returned. *)
Theorem build_output_list_fails_as_a_whole (before after : list json) (item : json)
    (m : gmap Z json) (out : list json) (x : exn) :
  build_output_list before m = Ok out →
  output_entry item m = Raise x →
  build_output_list (before ++ item :: after) m = Raise x.
Proof.
  intros Hb Hx. unfold build_output_list in *. rewrite build_output_loop_app, Hb.
  simpl. by rewrite Hx.
Qed.

Lemma build_output_list_fails_as_a_whole_witness :
  let good := JObj [("node", JObj [("id", JInt 1); ("title", JStr "A")])] in
  let bad := JObj [("node", JObj [("id", JStr "n/a"); ("title", JStr "B")])] in
  build_output_list [good; bad; good] ∅ = Raise ValueError
  ∧ build_output_list [good; JStr "stray"; good] ∅ = Raise AttributeError.
Proof.
  intros good bad. split.
  - apply (build_output_list_fails_as_a_whole [good] [good] bad ∅
             [JObj [("title", JStr "A"); ("malId", JInt 1)]] ValueError); reflexivity.
  - reflexivity.
Defined.

(** ** Request handler *)

Lemma animelist_route_named rc e fuel u arg_status w :
  u ≠ "" →
  animelist_route rc e fuel (Some u) arg_status w =
  try_except (animelist_pipeline e fuel u (default "watching" arg_status))
    (λ x, pure (Some (Error500 x))) w.
Proof.
  intros Hu. apply String.eqb_neq in Hu.
  unfold animelist_route, mbind, M_bind, config_get, config_get_default, py_or. simpl.
  rewrite Hu. simpl. by rewrite Hu.
Qed.

(** X23.  Without a user name, in the query (missing or empty) and in
    the record in memory, the route answers 400 and does nothing else:
    the file is not read, no token is asked for, nothing is sent. *)
Theorem animelist_route_without_username (rc : json → string) (e : env) (fuel : nat)
    (arg_username arg_status : option string) (w : world) :
  arg_username = None ∨ arg_username = Some "" →
  truthy (default JNull (config w !! "username")) = false →
  animelist_route rc e fuel arg_username arg_status w = (Ok (Some Abort400), w).
Proof.
  intros Harg Hcfg.
  unfold animelist_route, mbind, M_bind, config_get, config_get_default, py_or.
  destruct Harg as [-> | ->]; simpl; by rewrite Hcfg.
Qed.

Lemma animelist_route_without_username_witness :
  let c : gmap string json :=
    list_to_map [("client_id", JStr "id"); ("client_secret", JStr "sec");
                 ("refresh_token", JStr "r0"); ("username", JStr "")] in
  let w := mkWorld c (Some c) [] 0 in
  animelist_route (λ _, "") (mkEnv (λ _, None) (λ _, 0)) 5 (Some "") (Some "completed") w
  = (Ok (Some Abort400), w).
Proof.
  intros c w.
  apply (animelist_route_without_username (λ _, "") (mkEnv (λ _, None) (λ _, 0)) 5
           (Some "") (Some "completed") w).
  - right. reflexivity.
  - reflexivity.
Defined.

(** X24.  The route never lets an exception through.  For a named
    user, a failure of the list fetch is answered 500 with that error
    and nothing is done after it; a failure of the cross-reference
    fetch or of the merge is answered 500 as well, the fetched list
    being dropped; only when all three succeed is the merged list
    answered. *)
Theorem animelist_route_replies (rc : json → string) (e : env) (fuel : nat)
    (arg_username arg_status : option string) (w : world) :
  (∀ x, (animelist_route rc e fuel arg_username arg_status w).1 ≠ Raise x)
  ∧ ∀ u, arg_username = Some u → u ≠ "" →
      let status := default "watching" arg_status in
      (∀ x w1, fetch_all_animelist e fuel u status w = (Raise x, w1) →
               animelist_route rc e fuel arg_username arg_status w
               = (Ok (Some (Error500 x)), w1))
      ∧ (∀ items w1,
           fetch_all_animelist e fuel u status w = (Ok (Some items), w1) →
           (∀ x w2, fetch_anime_ids_map e w1 = (Raise x, w2) →
                    animelist_route rc e fuel arg_username arg_status w
                    = (Ok (Some (Error500 x)), w2))
           ∧ (∀ m w2, fetch_anime_ids_map e w1 = (Ok m, w2) →
                      animelist_route rc e fuel arg_username arg_status w
                      = (Ok (Some match build_output_list items m with
                                  | Ok out => Json200 out
                                  | Raise x => Error500 x
                                  end), w2))).
Proof.
  split.
  - intros x. unfold animelist_route, mbind, M_bind, config_get, config_get_default.
    simpl. destruct (negb _); [done|]. unfold try_except.
    by destruct (animelist_pipeline e fuel _ _ w) as [[r|y] w'].
  - intros u -> Hu status. subst status.
    rewrite (animelist_route_named rc e fuel u arg_status w Hu).
    unfold try_except, animelist_pipeline, mbind, M_bind.
    split.
    + intros x w1 H. by rewrite H.
    + intros items w1 H. rewrite H. split.
      * intros x w2 H2. by rewrite H2.
      * intros m w2 H2. rewrite H2. unfold lift, pure.
        by destruct (build_output_list items m).
Qed.

Lemma animelist_route_replies_witness :
  let c : gmap string json :=
    list_to_map [("client_id", JStr "id"); ("client_secret", JStr "sec")] in
  let w := mkWorld c (Some c) [] 0 in
  animelist_route (λ _, "") (mkEnv (λ _, None) (λ _, 0)) 5 (Some "bob") None w
  = (Ok (Some (Error500 (RuntimeError no_token_msg))), w).
Proof.
  intros c w.
  destruct (animelist_route_replies (λ _, "") (mkEnv (λ _, None) (λ _, 0)) 5
              (Some "bob") None w) as [_ Hnamed].
  destruct (Hnamed "bob" eq_refl) as [Hfail _]; [discriminate|].
  apply Hfail. reflexivity.
Defined.

(** *** What is sent first *)

Lemma grows_bind {A B} (m : M A) (f : A → M B) :
  grows m → (∀ a, grows (f a)) → grows (m ≫= f).
Proof. apply emits_bind. Qed.

Lemma grows_silent {A} (m : M A) : (∀ w, log (m w).2 = log w) → grows m.
Proof. apply emits_silent. Qed.

Lemma grows_intro {A} (m : M A) :
  (∀ w, ∃ new, log (m w).2 = (new ++ log w)%list) → grows m.
Proof.
  intros H w. destruct (H w) as [new Hnew]. exists new. split; [done|].
  apply Forall_forall. done.
Qed.

Lemma grows_elim {A} (m : M A) w :
  grows m → ∃ new, log (m w).2 = (new ++ log w)%list.
Proof. intros H. destruct (H w) as (new & Hnew & _). eauto. Qed.

Lemma grows_ensure_token e : grows (ensure_token e).
Proof. apply emits_ensure_token; done. Qed.

Lemma grows_http_get e url auth params : grows (http_get e url auth params).
Proof.
  apply grows_intro. intros w. unfold http_get, send, raise.
  destruct url as [|b|z|u|l|d]; try (by exists []).
  destruct (server e _); by eexists [_].
Qed.

Lemma grows_page_tail (resp : response) (token : json) (items : list json) :
  grows (if negb (status_code resp =? 200)
         then raise (RuntimeError (fetch_failed_msg resp))
         else
           data ← resp_json resp;
           page_items ← lift (py_get_default "data" (JArr []) data);
           items ← lift (py_extend items page_items);
           paging ← lift (py_get_default "paging" (JObj []) data);
           next_url ← lift (py_get "next" paging);
           pure (next_url, token, items)).
Proof.
  destruct (negb _); [by apply grows_silent|].
  apply grows_bind.
  { apply grows_silent. intros w. unfold resp_json. by destruct (body resp). }
  intros data. repeat (apply grows_bind; [by apply grows_silent|]; intros ?).
  by apply grows_silent.
Qed.

Lemma grows_animelist_page e url token params items :
  grows (animelist_page e url token params items).
Proof.
  unfold animelist_page.
  apply grows_bind; [apply grows_http_get|]. intros resp.
  apply grows_bind; [|intros rt; apply grows_page_tail].
  destruct (status_code resp =? 401); [|by apply grows_silent].
  unfold refresh_and_retry.
  apply grows_bind; [by apply grows_silent|]. intros _.
  apply grows_bind; [apply grows_intro; intros w; by eexists [_]|]. intros _.
  apply grows_bind; [apply grows_ensure_token|]. intros _.
  apply grows_bind; [by apply grows_silent|]. intros tok.
  apply grows_bind; [apply grows_http_get|]. intros r.
  by apply grows_silent.
Qed.

Lemma grows_fetch_loop e fuel url token params items :
  grows (fetch_loop e fuel url token params items).
Proof.
  revert url token params items.
  induction fuel as [|fuel IH]; intros url token params items; simpl.
  - destruct (negb (truthy url)); by apply grows_silent.
  - destruct (negb (truthy url)); [by apply grows_silent|].
    apply grows_bind; [apply grows_animelist_page|].
    intros [[next tok] its]. apply IH.
Qed.

Lemma grows_fetch_anime_ids_map e : grows (fetch_anime_ids_map e).
Proof.
  apply grows_intro. intros w. rewrite fetch_anime_ids_map_eq. by eexists [_].
Qed.

Lemma bind_keeps_suffix {A B} (m : M A) (f : A → M B) w base :
  (∃ l1, log (m w).2 = (l1 ++ base)%list) → (∀ a, grows (f a)) →
  ∃ later, log ((m ≫= f) w).2 = (later ++ base)%list.
Proof.
  intros [l1 Hl1] Hf. unfold mbind, M_bind.
  destruct (m w) as [[a|x] w1]; simpl in *; [|eauto].
  destruct (grows_elim (f a) w1 (Hf a)) as [l2 Hl2].
  exists (l2 ++ l1)%list. by rewrite Hl2, Hl1, app_assoc.
Qed.

Lemma animelist_page_first_event e u token params items w :
  ∃ later, log (animelist_page e (JStr u) token params items w).2
           = (later ++ Sent (Get u (Some token) params) :: log w)%list.
Proof.
  unfold animelist_page.
  apply bind_keeps_suffix.
  - unfold http_get, send. destruct (server e _); by exists [].
  - intros resp. apply grows_bind; [|intros rt; apply grows_page_tail].
    destruct (status_code resp =? 401); [|by apply grows_silent].
    unfold refresh_and_retry.
    apply grows_bind; [by apply grows_silent|]. intros _.
    apply grows_bind; [apply grows_intro; intros w0; by eexists [_]|]. intros _.
    apply grows_bind; [apply grows_ensure_token|]. intros _.
    apply grows_bind; [by apply grows_silent|]. intros tok.
    apply grows_bind; [apply grows_http_get|]. intros r.
    by apply grows_silent.
Qed.

Lemma fetch_loop_first_event e fuel u token params items w :
  u ≠ "" →
  ∃ later, log (fetch_loop e (S fuel) (JStr u) token params items w).2
           = (later ++ Sent (Get u (Some token) params) :: log w)%list.
Proof.
  intros Hu. apply String.eqb_neq in Hu. simpl. rewrite Hu. simpl.
  apply bind_keeps_suffix; [apply animelist_page_first_event|].
  intros [[next tok] its]. apply grows_fetch_loop.
Qed.

Lemma animelist_url_not_empty u : animelist_url u ≠ "".
Proof. discriminate. Qed.

Lemma plain_segment_not_empty u : plain_segment u = true → u ≠ "".
Proof.
  unfold plain_segment. intros [H _]%andb_true_iff.
  apply String.eqb_neq. by destruct (String.eqb u "").
Qed.

(** X25.  With a valid stored token, the first thing the route sends
    for a user named in the query by a plain path segment (letters,
    digits, [_], [-]) is the list request for that name, whatever user
    name the record holds, with the [status] of the query passed on as
    it is: ["watching"] only when the query has no [status] at all, the
    empty string when it has an empty one. *)
Theorem animelist_route_first_request (rc : json → string) (e : env) (fuel : nat)
    (u : string) (arg_status : option string) (w : world) (c : gmap string json) (n : Z) :
  plain_segment u = true →
  disk w = Some c →
  truthy (default JNull (c !! "access_token")) = true →
  py_int (default (JInt 0) (c !! "expires_at")) = Ok n →
  clock e (ticks w) + 60 < n →
  ∃ later,
    log (animelist_route rc e (S fuel) (Some u) arg_status w).2
    = (later ++ Sent (Get (animelist_url u) (Some (default JNull (c !! "access_token")))
                        [("status", JStr (default "watching" arg_status));
                         ("limit", JInt 100)]) :: log w)%list.
Proof.
  intros Hu%plain_segment_not_empty Hd Hat Hn Hlt.
  rewrite (animelist_route_named rc e (S fuel) u arg_status w Hu).
  assert (∃ later,
            log (animelist_pipeline e (S fuel) u (default "watching" arg_status) w).2
            = (later ++ Sent (Get (animelist_url u)
                                (Some (default JNull (c !! "access_token")))
                                [("status", JStr (default "watching" arg_status));
                                 ("limit", JInt 100)]) :: log w)%list) as [later Hl].
  { unfold animelist_pipeline. apply bind_keeps_suffix.
    - unfold fetch_all_animelist. unfold mbind at 1, M_bind at 1.
      rewrite (ensure_token_valid_returns e w c n Hd Hat Hn Hlt).
      unfold mbind at 1, M_bind at 1. unfold config_get, config_get_default.
      cbv beta iota. cbn [config].
      apply (fetch_loop_first_event e fuel (animelist_url u)
               (default JNull (c !! "access_token"))
               [("status", JStr (default "watching" arg_status)); ("limit", JInt 100)] []
               (mkWorld c (Some c) (log w) (S (ticks w)))).
      apply animelist_url_not_empty.
    - intros [items|]; [|by apply grows_silent].
      apply grows_bind; [apply grows_fetch_anime_ids_map|]. intros m.
      apply grows_bind; [by apply grows_silent|]. intros out.
      by apply grows_silent. }
  exists later. rewrite <- Hl. unfold try_except.
  by destruct (animelist_pipeline e (S fuel) u _ w) as [[r|x] w'].
Qed.

Lemma animelist_route_first_request_witness :
  let c : gmap string json :=
    list_to_map [("access_token", JStr "tok"); ("expires_at", JInt 99999);
                 ("username", JStr "alice")] in
  let e := mkEnv (λ _, Some (mkResponse 200 "" (Some (JObj [])))) (λ _, 1000) in
  ∃ later,
    log (animelist_route (λ _, "") e 1 (Some "bob") (Some "") (mkWorld c (Some c) [] 0)).2
    = (later ++ [Sent (Get (animelist_url "bob") (Some (JStr "tok"))
                         [("status", JStr ""); ("limit", JInt 100)])])%list.
Proof.
  intros c e.
  destruct (animelist_route_first_request (λ _, "") e 0 "bob" (Some "")
              (mkWorld c (Some c) [] 0) c 99999) as [later Hl]; try reflexivity.
  exists later. exact Hl.
Defined.

(** ** Decimal keys *)












(** X27.  When the query names no user (no [username], or an empty
    one), the route serves the user named in the record in memory,
    exactly as if the query had named that user. *)
Theorem animelist_route_default_username (rc : json → string) (e : env) (fuel : nat)
    (arg_username arg_status : option string) (u : string) (w : world) :
  arg_username = None ∨ arg_username = Some "" →
  config w !! "username" = Some (JStr u) →
  u ≠ "" →
  animelist_route rc e fuel arg_username arg_status w
  = animelist_route rc e fuel (Some u) arg_status w.
Proof.
  intros Harg Hcfg Hu. rewrite (animelist_route_named rc e fuel u arg_status w Hu).
  apply String.eqb_neq in Hu.
  unfold animelist_route, mbind, M_bind, config_get, config_get_default, py_or.
  destruct Harg as [-> | ->]; simpl; rewrite Hcfg; simpl; rewrite Hu; simpl;
    by rewrite ?Hu.
Qed.

Lemma animelist_route_default_username_witness :
  let c : gmap string json := list_to_map [("username", JStr "alice")] in
  let e := mkEnv (λ _, None) (λ _, 0) in
  animelist_route (λ _, "") e 3 (Some "") None (mkWorld c (Some c) [] 0)
  = animelist_route (λ _, "") e 3 (Some "alice") None (mkWorld c (Some c) [] 0).
Proof.
  intros c e.
  apply (animelist_route_default_username (λ _, "") e 3 (Some "") None "alice"
           (mkWorld c (Some c) [] 0)).
  - right. reflexivity.
  - reflexivity.
  - discriminate.
Defined.
